(** * The node directory (locator) and the deal watcher (hub/eth)

    A shallow embedding of [insonmnia/locator/server.go], of the [eth]
    type of the [hub] package and of the GPU device of
    [insonmnia/hardware/gpu], with the properties of the directory, of its
    janitor, of the deal polling loops and of the device options.

    Conventions.
    - A Go method with a pointer receiver becomes a function that takes the
      receiver's state and gives the new state back next to its result.
    - [time.Now()] is an argument: the instant the clock shows at the call.
    - A [select] over a ticker and a context is run against a list of
      moments, one per scheduling opportunity of the goroutine. *)

From Stdlib Require Import ZArith Ascii String.
From stdpp Require Import base option list gmap fin_maps strings.

Local Open Scope Z_scope.

(** ** Values shared by both packages *)

(** A Go [(T, error)] pair of which exactly one side is meaningful. *)
Inductive result (E A : Type) : Type :=
  | Ok (a : A)
  | Err (e : E).
Arguments Ok {E A} a.
Arguments Err {E A} e.

(** [time.Time] as an instant on a line of nanoseconds, [time.Duration] as
    the int64 it is. *)
Definition Time := Z.
Definition Duration := Z.

Definition wrap_int64 (z : Z) : Z := (z + 2 ^ 63) mod 2 ^ 64 - 2 ^ 63.
Definition wrap_uint64 (z : Z) : Z := z mod 2 ^ 64.
Definition min_int64 : Z := - 2 ^ 63.
Definition max_int64 : Z := 2 ^ 63 - 1.

(** [a * d] on durations: an int64 product. *)
Definition Duration_mul (a d : Duration) : Duration := wrap_int64 (a * d).
(** [t.Add(d)] and [t.Before(u)]. *)
Definition Time_Add (t : Time) (d : Duration) : Time := t + d.
Definition Time_Before (t u : Time) : bool := t <? u.

(** [common.Address]: the 20 bytes read as one big-endian number. *)
Definition Address := N.
Definition zeroAddress : Address := 0%N.

(** ** go-ethereum's hex syntax of addresses

    [common.IsHexAddress] and [common.HexToAddress] belong to a library the
    server imports.  The server is verified for any pair of such functions
    (see the section variables below); this module is the instance used to
    run the server on concrete requests. *)
Module common.

Definition AddressLength : nat := 20.

Definition hexDigit (c : ascii) : option N :=
  let n := N_of_ascii c in
  if ((48 <=? n) && (n <=? 57))%N then Some (n - 48)%N
  else if ((97 <=? n) && (n <=? 102))%N then Some (n - 87)%N
  else if ((65 <=? n) && (n <=? 70))%N then Some (n - 55)%N
  else None.

Fixpoint isHex (s : string) : bool :=
  match s with
  | EmptyString => true
  | String c s' =>
      match hexDigit c with Some _ => isHex s' | None => false end
  end.

Definition has0xPrefix (s : string) : bool :=
  match s with
  | String "0" (String c _) => (Ascii.eqb c "x" || Ascii.eqb c "X")%bool
  | _ => false
  end.

Definition strip0x (s : string) : string :=
  if has0xPrefix s then
    match s with String _ (String _ s') => s' | _ => s end
  else s.

Definition IsHexAddress (s : string) : bool :=
  let s := strip0x s in
  (Nat.eqb (String.length s) (2 * AddressLength) && isHex s)%bool.

Fixpoint hexValue (acc : N) (s : string) : N :=
  match s with
  | EmptyString => acc
  | String c s' =>
      match hexDigit c with
      | Some d => hexValue (16 * acc + d)%N s'
      | None => acc
      end
  end.

Definition HexToAddress (s : string) : Address :=
  (hexValue 0 (strip0x s) mod 2 ^ 160)%N.

End common.

(** ** Package locator *)
Module locator.

(** The [codes] of gRPC the server uses. *)
Inductive Code := DataLoss | Unauthenticated.

(** The error values the server makes. *)
Inductive error :=
  | errNodeNotFound
      (* errors.New("node with given Eth address cannot be found") *)
  | errInvalidEthAddress (s : string)
      (* fmt.Errorf("invalid ethaddress %s", s) *)
  | statusError (c : Code) (msg : string).
      (* status.Error(c, msg) *)

Definition Code_String (c : Code) : string :=
  match c with
  | DataLoss => "DataLoss"
  | Unauthenticated => "Unauthenticated"
  end.

(** [err.Error()] *)
Definition Error (e : error) : string :=
  match e with
  | errNodeNotFound => "node with given Eth address cannot be found"
  | errInvalidEthAddress s => "invalid ethaddress " +:+ s
  | statusError c msg =>
      "rpc error: code = " +:+ Code_String c +:+ " desc = " +:+ msg
  end.

(** What gRPC attaches to the context of an inbound call. *)
Inductive AuthInfo :=
  | EthAuthInfo (Wallet : Address)     (* util.EthAuthInfo *)
  | otherAuthInfo (AuthType : string)  (* any other credentials.AuthInfo *)
  | nilAuthInfo.                       (* a peer without credentials *)

Record Peer := { AuthInfo_of : AuthInfo }.

(** [peer.FromContext(ctx)] gives [ctx_peer ctx]. *)
Record Context := { ctx_peer : option Peer }.

Record LocatorConfig := {
  ListenAddr : string;
  NodeTTL : Duration;
  CleanupPeriod : Duration }.

Record node := {
  ethAddr : Address;
  ipAddr : list string;
  ts : Time }.

(** The fields of [Locator] its handlers read or write: the configuration
    and the map the mutex guards. *)
Record Locator := {
  conf : LocatorConfig;
  db : gmap Address node }.

Record AnnounceRequest := { AnnounceRequest_IpAddr : list string }.
Record ResolveRequest := { EthAddr : string }.
Record ResolveReply := { ResolveReply_IpAddr : list string }.
Inductive Empty := mkEmpty.

(** The overwrite of a struct field: [n.ts = t]. *)
Definition set_ts (n : node) (t : Time) : node :=
  {| ethAddr := ethAddr n; ipAddr := ipAddr n; ts := t |}.

Definition set_db (l : Locator) (m : gmap Address node) : Locator :=
  {| conf := conf l; db := m |}.

Definition extractEthAddr (l : Locator) (ctx : Context)
  : Address * option error :=
  match ctx_peer ctx with
  | None =>
      (zeroAddress, Some (statusError DataLoss "failed to get peer from ctx"))
  | Some pr =>
      match AuthInfo_of pr with
      | EthAuthInfo wallet => (wallet, None)
      | _ =>
          (zeroAddress, Some (statusError Unauthenticated "wrong AuthInfo type"))
      end
  end.

Definition putAnnounce (now : Time) (l : Locator) (n : node) : Locator :=
  let n := set_ts n now in
  set_db l (<[ethAddr n := n]> (db l)).

Definition getResolve (l : Locator) (a : Address)
  : Locator * result error node :=
  match db l !! a with
  | None => (l, Err errNodeNotFound)
  | Some n => (l, Ok n)
  end.

Definition Announce (now : Time) (l : Locator) (ctx : Context)
  (req : AnnounceRequest) : Locator * result error Empty :=
  match extractEthAddr l ctx with
  | (_, Some err) => (l, Err err)
  | (a, None) =>
      (putAnnounce now l
         {| ethAddr := a; ipAddr := AnnounceRequest_IpAddr req; ts := 0 |},
       Ok mkEmpty)
  end.

(** The sweep.  [for addr, node := range l.db] visits the keys in an order
    the runtime chooses, and yields a key only if it is still in the map
    when its turn comes. *)
Record sweepLog := { total : Z; keep : Z; del : Z }.

Definition sweepEntry (deadline : Time)
  (st : gmap Address node * Z * Z) (addr : Address)
  : gmap Address node * Z * Z :=
  let '(m, del, keep) := st in
  match m !! addr with
  | None => st
  | Some node =>
      if Time_Before (ts node) deadline
      then (delete addr m, wrap_uint64 (del + 1), keep)
      else (m, del, wrap_uint64 (keep + 1))
  end.

Definition traverseAndCleanIn (order : list Address) (now : Time)
  (l : Locator) : Locator * sweepLog :=
  let deadline := Time_Add now (Duration_mul (-1) (NodeTTL (conf l))) in
  let total := Z.of_nat (size (db l)) in
  let '(m, del, keep) := foldl (sweepEntry deadline) (db l, 0, 0) order in
  (set_db l m, {| total := total; keep := keep; del := del |}).

Definition traverseAndClean (now : Time) (l : Locator)
  : Locator * sweepLog :=
  traverseAndCleanIn (map_to_list (db l)).*1 now l.

(** [cleanExpiredNodes] never returns; here it runs for the ticks of a
    finite stretch of time, each with the instant the sweep reads. *)
Definition cleanExpiredNodes (ticks : list Time) (l : Locator) : Locator :=
  foldl (fun l now => (traverseAndClean now l).1) l ticks.

(** The part of [NewLocator] that makes the state. *)
Definition NewLocator (c : LocatorConfig) : Locator :=
  {| conf := c; db := ∅ |}.

(** The orders a [range] over [m] may take: the keys of [m], each once. *)
Definition range_order (m : gmap Address node) (order : list Address) : Prop :=
  order ≡ₚ (map_to_list m).*1.

(** What a sweep with deadline [dl] is to leave of an entry. *)
Definition live (dl : Time) (o : option node) : option node :=
  match o with
  | Some n => if Time_Before (ts n) dl then None else Some n
  | None => None
  end.

Section Resolve.
Variable IsHexAddress : string -> bool.
Variable HexToAddress : string -> Address.

Definition Resolve (l : Locator) (req : ResolveRequest)
  : Locator * result error ResolveReply :=
  if negb (IsHexAddress (EthAddr req)) then
    (l, Err (errInvalidEthAddress (EthAddr req)))
  else
    match getResolve l (HexToAddress (EthAddr req)) with
    | (l, Err err) => (l, Err err)
    | (l, Ok n) => (l, Ok {| ResolveReply_IpAddr := ipAddr n |})
    end.
End Resolve.

End locator.

(** ** Package hub: the [eth] type *)
Module hub.

(** Modelled from the spec: the [DealStatus] enumeration and the [Deal]
    message of proto/deal.proto, of which the sources only show the
    getters and the three status names used. *)
Inductive DealStatus := PENDING | ACCEPTED | CLOSED.

Definition DealStatus_eqb (a b : DealStatus) : bool :=
  match a, b with
  | PENDING, PENDING | ACCEPTED, ACCEPTED | CLOSED, CLOSED => true
  | _, _ => false
  end.

Record Deal := {
  Id : string;
  BuyerID : string;
  SupplierID : string;
  Price : string;
  Status : DealStatus;
  SpecificationHash : string;
  StartTime : Z;
  EndTime : Z }.

(** The error values that reach a caller of [eth]. *)
Inductive error :=
  | errDealNotFound
  | Canceled                        (* context.Canceled *)
  | DeadlineExceeded                (* context.DeadlineExceeded *)
  | collaboratorError (msg : string).
      (* made by the ledger client or by util.ParseBigInt *)

Definition DealID := string.
Definition PrivateKey := Z.

(** [blockchain.Blockchainer], as the ledger answers at one instant.
    Deal ids are [*big.Int]. *)
Record Blockchainer := {
  GetOpenedDeal : string -> string -> result error (list Z);
  GetClosedDeal : string -> string -> result error (list Z);
  GetDealInfo : Z -> result error Deal;
  AcceptDeal : PrivateKey -> Z -> option error }.

Record eth := {
  key : PrivateKey;
  timeout : Duration }.

(** The two cases of the [select] statements. *)
Inductive branch := TimerC | CtxDone.

(** One scheduling opportunity of a goroutine that sits in, or arrives
    at, its [select]: the instant, whether the ticker's channel holds a
    tick, what [Err()] of the context the caller handed over says ([Some]
    once its [Done()] channel is closed), which ready case the runtime
    draws when both are ready, and the ledger's answers at that instant. *)
Record moment := {
  at_time : Time;
  tickReady : bool;
  ctxErr : option error;
  pick : branch;
  bc : Blockchainer }.

(** A call that has not returned by the end of the moments given is still
    [Blocked] in its [select]. *)
Inductive outcome (A : Type) : Type :=
  | Returned (a : A)
  | Blocked.
Arguments Returned {A} a.
Arguments Blocked {A}.

(** Go's [select]: a ready case runs; of two ready cases the runtime
    draws one; with none ready the goroutine stays parked. *)
Definition select (tick : bool) (done : bool) (drawn : branch)
  : option branch :=
  match tick, done with
  | true, true => Some drawn
  | true, false => Some TimerC
  | false, true => Some CtxDone
  | false, false => None
  end.

(** [context.WithTimeout(parent, d)]: done once the parent is done or the
    deadline has come, and the first cause stays. *)
Definition withTimeout_Err (deadline : Time) (prev : option error)
  (m : moment) : option error :=
  match prev with
  | Some e => Some e
  | None =>
      match ctxErr m with
      | Some e => Some e
      | None =>
          if deadline <=? at_time m then Some DeadlineExceeded else None
      end
  end.

Section eth.
(** [util.PubKeyToAddr(key.PublicKey).Hex()] and [util.ParseBigInt]. *)
Variable selfHex : PrivateKey -> string.
Variable ParseBigInt : string -> result error Z.

(** The [for _, id := range IDs] loop of [findDealOnce]. *)
Fixpoint findDealOnce_range (w : Blockchainer) (hash : string)
  (IDs : list Z) : option Deal :=
  match IDs with
  | [] => None
  | id :: IDs' =>
      match GetDealInfo w id with
      | Err _ => findDealOnce_range w hash IDs'
      | Ok deal =>
          if DealStatus_eqb (Status deal) PENDING
             && String.eqb (SpecificationHash deal) hash
          then Some deal
          else findDealOnce_range w hash IDs'
      end
  end.

Definition findDealOnce (e : eth) (w : Blockchainer)
  (addr hash : string) : option Deal :=
  match GetOpenedDeal w (selfHex (key e)) addr with
  | Err _ => None
  | Ok IDs => findDealOnce_range w hash IDs
  end.

(** The [for { select ... }] loop of [findDeals]; [st] is the state of
    the context made by [WithTimeout]. *)
Fixpoint findDeals_loop (e : eth) (deadline : Time) (st : option error)
  (addr hash : string) (ms : list moment)
  : outcome (result error Deal) :=
  match ms with
  | [] => Blocked
  | m :: ms' =>
      let st := withTimeout_Err deadline st m in
      match select (tickReady m) (bool_decide (is_Some st)) (pick m) with
      | None => findDeals_loop e deadline st addr hash ms'
      | Some TimerC =>
          match findDealOnce e (bc m) addr hash with
          | Some deal => Returned (Ok deal)
          | None => findDeals_loop e deadline st addr hash ms'
          end
      | Some CtxDone =>
          match st with
          | Some err => Returned (Err err)
          | None => findDeals_loop e deadline st addr hash ms'
          end
      end
  end.

(** [findDeals], called at [now] with the ledger answering as [w0],
    and then scheduled at the moments [ms].  Its [ctx] argument is
    overwritten at once by [context.WithTimeout(e.ctx, e.timeout)], so it
    is no argument here, and [ctxErr] of a moment is the state of [e.ctx]. *)
Definition findDeals (e : eth) (now : Time) (w0 : Blockchainer)
  (addr hash : string) (ms : list moment)
  : outcome (result error Deal) :=
  let deadline := Time_Add now (timeout e) in
  match findDealOnce e w0 addr hash with
  | Some deal => Returned (Ok deal)
  | None => findDeals_loop e deadline None addr hash ms
  end.

(** [structs.DealRequest], as far as [WaitForDealCreated] reads it:
    [request.Order.ByuerID] and [request.SpecHash]. *)
Record DealRequest := {
  ByuerID : string;
  SpecHash : string }.

Definition WaitForDealCreated (e : eth) (now : Time) (w0 : Blockchainer)
  (request : DealRequest) (ms : list moment)
  : outcome (result error Deal) :=
  findDeals e now w0 (ByuerID request) (SpecHash request) ms.

(** The [for _, id := range ids] loop of [WaitForDealClosed]: [true]
    when it reaches [return nil]. *)
Fixpoint WaitForDealClosed_range (w : Blockchainer) (dealID : DealID)
  (ids : list Z) : bool :=
  match ids with
  | [] => false
  | id :: ids' =>
      match GetDealInfo w id with
      | Err _ => WaitForDealClosed_range w dealID ids'
      | Ok dealInfo =>
          if String.eqb (Id dealInfo) dealID
             && DealStatus_eqb (Status dealInfo) CLOSED
          then true
          else WaitForDealClosed_range w dealID ids'
      end
  end.

(** [WaitForDealClosed]: [Returned None] is [return nil]. *)
Fixpoint WaitForDealClosed (e : eth) (dealID : DealID)
  (buyerID : string) (ms : list moment) : outcome (option error) :=
  match ms with
  | [] => Blocked
  | m :: ms' =>
      match select (tickReady m) (bool_decide (is_Some (ctxErr m)))
              (pick m) with
      | None => WaitForDealClosed e dealID buyerID ms'
      | Some TimerC =>
          match GetClosedDeal (bc m) (selfHex (key e)) buyerID with
          | Err err => Returned (Some err)
          | Ok ids =>
              if WaitForDealClosed_range (bc m) dealID ids
              then Returned None
              else WaitForDealClosed e dealID buyerID ms'
          end
      | Some CtxDone =>
          match ctxErr m with
          | Some err => Returned (Some err)
          | None => WaitForDealClosed e dealID buyerID ms'
          end
      end
  end.

Definition GetDeal (e : eth) (w : Blockchainer) (id : string)
  : result error Deal :=
  match ParseBigInt id with
  | Err err => Err err
  | Ok bigID =>
      match GetDealInfo w bigID with
      | Err err => Err err
      | Ok deal =>
          let idOK := String.eqb (SupplierID deal) (selfHex (key e)) in
          let statusOK := DealStatus_eqb (Status deal) ACCEPTED in
          let dealOK := idOK && statusOK in
          if dealOK then Ok deal else Err errDealNotFound
      end
  end.
End eth.

(** A probe on the ledger [w] that is stopped by failing queries: the
    listing of the opened deals fails, or it lists deals and the info of
    none of them can be read. *)
Definition probe_fails (w : Blockchainer) (self addr : string) : Prop :=
  (∃ err, GetOpenedDeal w self addr = Err err)
  ∨ (∃ IDs, GetOpenedDeal w self addr = Ok IDs ∧ IDs ≠ []
       ∧ ∀ id, id ∈ IDs -> ∃ err, GetDealInfo w id = Err err).

End hub.

(** ** Concrete requests, ledgers and schedules

    The values on which the theorems below are run. *)
Module sample.
Import locator hub.

Definition second : Duration := 1000000000.

(** The address of the locator in hub.yaml. *)
Definition addrHex : string := "8125721C2413d99a33E351e1F6Bb4e56b6b633FD".
Definition addr : Address := common.HexToAddress addrHex.

Definition config : LocatorConfig :=
  {| ListenAddr := ":9090"; NodeTTL := 60 * second;
     CleanupPeriod := 10 * second |}.

Definition ethPeer : Context :=
  {| ctx_peer := Some {| AuthInfo_of := EthAuthInfo addr |} |}.
Definition tlsPeer : Context :=
  {| ctx_peer := Some {| AuthInfo_of := otherAuthInfo "tls" |} |}.
Definition noPeer : Context := {| ctx_peer := None |}.

Definition E1 : list string := ["10.0.0.1:10001"].
Definition E2 : list string := ["10.0.0.2:10001"; "[::1]:10001"].

(** A directory with one record, last seen at instant 0. *)
Definition oneNode : Locator :=
  (Announce 0 (NewLocator config) ethPeer
     {| AnnounceRequest_IpAddr := E1 |}).1.

(** A decimal reader in the place of [util.ParseBigInt]. *)
Definition digit (c : ascii) : option Z :=
  let n := Z.of_N (N_of_ascii c) in
  if (48 <=? n) && (n <=? 57) then Some (n - 48) else None.

Fixpoint parseDigits (acc : Z) (s : string) : option Z :=
  match s with
  | EmptyString => Some acc
  | String c s' =>
      match digit c with
      | Some d => parseDigits (10 * acc + d) s'
      | None => None
      end
  end.

Definition ParseBigInt (s : string) : result hub.error Z :=
  match s with
  | EmptyString => Err (collaboratorError "invalid big int")
  | _ =>
      match parseDigits 0 s with
      | Some z => Ok z
      | None => Err (collaboratorError "invalid big int")
      end
  end.

Definition selfHex (k : PrivateKey) : string := "0x" +:+ addrHex.
Definition buyer : string := "0x00000000000000000000000000000000000000b1".

Definition hubEth : eth := {| key := 1; timeout := 900 * second |}.

Definition mkDeal (id : string) (supplier : string) (st : DealStatus)
  (hash : string) : Deal :=
  {| Id := id; BuyerID := buyer; SupplierID := supplier; Price := "1";
     Status := st; SpecificationHash := hash; StartTime := 0; EndTime := 0 |}.

Definition ledgerDown : hub.error := collaboratorError "ledger unreachable".
Definition noSuchDeal : hub.error := collaboratorError "no such deal".

(** A ledger that answers no query. *)
Definition downLedger : Blockchainer :=
  {| GetOpenedDeal := λ _ _, Err ledgerDown;
     GetClosedDeal := λ _ _, Err ledgerDown;
     GetDealInfo := λ _, Err ledgerDown;
     AcceptDeal := λ _ _, Some ledgerDown |}.

(** A ledger with three deals: 7 is accepted and ours, 8 is accepted and
    another supplier's, 9 is pending and ours; it lists 8 and 9 as opened,
    in this order, and reports an error for any other id. *)
Definition dealInfo (id : Z) : result hub.error Deal :=
  if id =? 7 then Ok (mkDeal "7" (selfHex 1) ACCEPTED "h7")
  else if id =? 8 then Ok (mkDeal "8" buyer ACCEPTED "h9")
  else if id =? 9 then Ok (mkDeal "9" (selfHex 1) PENDING "h9")
  else Err noSuchDeal.

Definition openLedger : Blockchainer :=
  {| GetOpenedDeal := λ _ _, Ok [5; 8; 9];
     GetClosedDeal := λ _ _, Ok [];
     GetDealInfo := dealInfo;
     AcceptDeal := λ _ _, None |}.

(** The ledger lists deal 7 as closed but cannot be asked about it. *)
Definition flakyLedger : Blockchainer :=
  {| GetOpenedDeal := λ _ _, Ok [];
     GetClosedDeal := λ _ _, Ok [7];
     GetDealInfo := λ _, Err ledgerDown;
     AcceptDeal := λ _ _, None |}.

(** Deal 7 is closed. *)
Definition closedLedger : Blockchainer :=
  {| GetOpenedDeal := λ _ _, Ok [];
     GetClosedDeal := λ _ _, Ok [7];
     GetDealInfo := λ _, Ok (mkDeal "7" (selfHex 1) CLOSED "h7");
     AcceptDeal := λ _ _, None |}.

(** A tick comes due at [t] and the context is live. *)
Definition tickAt (t : Time) (w : Blockchainer) : moment :=
  {| at_time := t; tickReady := true; ctxErr := None; pick := TimerC;
     bc := w |}.
(** Nothing but the passing of time at [t]. *)
Definition idleAt (t : Time) (w : Blockchainer) : moment :=
  {| at_time := t; tickReady := false; ctxErr := None; pick := TimerC;
     bc := w |}.
(** The caller's context is cancelled by [t], between two ticks. *)
Definition cancelAt (t : Time) (w : Blockchainer) : moment :=
  {| at_time := t; tickReady := false; ctxErr := Some Canceled;
     pick := TimerC; bc := w |}.

End sample.

(** ** Package locator: the constructor and an invariant of the map *)
Module locator_ctor.
Import locator.

Definition PrivateKey := Z.

(** The errors [NewLocator] hands on: what the certificate rotator
    reports, and such an error under a message ([errors.Wrap]). *)
Inductive error :=
  | certError (msg : string)
  | withMessage (cause : error) (msg : string).

(** [errors.Wrap(err, message)] of github.com/pkg/errors: [nil] for a
    [nil] error, else the error under the message. *)
Definition Wrap (err : option error) (message : string) : option error :=
  match err with
  | None => None
  | Some cause => Some (withMessage cause message)
  end.

(** [NewLocator(ctx, conf, key)], with [util.NewHitlessCertRotator] as an
    argument ([None] when it succeeds).  The results [l] and [err] are
    named, so [err] is [nil] where the key is tested.  The goroutine of
    the janitor and the gRPC registration leave the state as it is made. *)
Definition NewLocator_call (NewHitlessCertRotator : PrivateKey -> option error)
  (c : LocatorConfig) (key : option PrivateKey)
  : option Locator * option error :=
  let err : option error := None in
  match key with
  | None => (None, Wrap err "private key should be provided")
  | Some k =>
      match NewHitlessCertRotator k with
      | Some err => (None, Some err)
      | None => (Some (NewLocator c), None)
      end
  end.

(** Every record sits under its own address. *)
Definition keyed (l : Locator) : Prop :=
  ∀ a n, db l !! a = Some n -> ethAddr n = a.

End locator_ctor.

(** ** Package gpu *)
Module gpu.

Inductive error :=
  | errMalformedOpenCLVersion
      (* errors.New("malformed OpenCL device version string") *)
  | optionError (msg : string).
      (* what an option of the caller's own may return *)

(** [sonm.GPUDevice], with the integer types the assignments in this file
    show: [uint64] for the vendor id, the clock and the memory, [int32]
    for the two parts of the version. *)
Record GPUDevice := {
  Name : string;
  VendorName : string;
  VendorId : Z;
  MaxMemorySize : Z;
  MaxClockFrequency : Z;
  OpenCLDeviceVersionMajor : Z;
  OpenCLDeviceVersionMinor : Z }.

Inductive device := mkDevice (d : GPUDevice).

(** An [Option] works on the device behind the pointer and may fail. *)
Definition Option := GPUDevice -> GPUDevice * option error.

Definition set_VendorId (d : GPUDevice) (v : Z) : GPUDevice :=
  {| Name := Name d; VendorName := VendorName d; VendorId := v;
     MaxMemorySize := MaxMemorySize d;
     MaxClockFrequency := MaxClockFrequency d;
     OpenCLDeviceVersionMajor := OpenCLDeviceVersionMajor d;
     OpenCLDeviceVersionMinor := OpenCLDeviceVersionMinor d |}.

Definition set_Major (d : GPUDevice) (v : Z) : GPUDevice :=
  {| Name := Name d; VendorName := VendorName d; VendorId := VendorId d;
     MaxMemorySize := MaxMemorySize d;
     MaxClockFrequency := MaxClockFrequency d;
     OpenCLDeviceVersionMajor := v;
     OpenCLDeviceVersionMinor := OpenCLDeviceVersionMinor d |}.

Definition set_Minor (d : GPUDevice) (v : Z) : GPUDevice :=
  {| Name := Name d; VendorName := VendorName d; VendorId := VendorId d;
     MaxMemorySize := MaxMemorySize d;
     MaxClockFrequency := MaxClockFrequency d;
     OpenCLDeviceVersionMajor := OpenCLDeviceVersionMajor d;
     OpenCLDeviceVersionMinor := v |}.

(** [uint(x)] of a [uint64], on a platform whose [uint] has [bits] bits. *)
Definition to_uint (bits : Z) (x : Z) : Z := x mod 2 ^ bits.

(** [d.VendorId = uint64(id)] *)
Definition WithVendorId (id : Z) : Option :=
  fun d => (set_VendorId d (wrap_uint64 id), None).

(** What [fmt.Sscanf(version, "OpenCL %d.%d %s", &major, &minor, &vendor)]
    did: the number of items stored, the two numbers (as far as stored),
    and whether it reports an error. *)
Record scan := {
  scan_n : Z;
  scan_major : Z;
  scan_minor : Z;
  scan_failed : bool }.

(** [Sscanf] stores item by item, so the fields scanned before a failure
    stay written. *)
Definition WithOpenClDeviceVersion (Sscanf : string -> scan)
  (version : string) : Option :=
  fun d =>
    let r := Sscanf version in
    let d := if 1 <=? scan_n r then set_Major d (scan_major r) else d in
    let d := if 2 <=? scan_n r then set_Minor d (scan_minor r) else d in
    if scan_n r <? 2 then (d, Some errMalformedOpenCLVersion)
    else if (scan_n r =? 2) && scan_failed r then (d, None)
    else (d, None).

Definition WithOpenClDeviceVersionSpec (major minor : Z) : Option :=
  fun d => (set_Minor (set_Major d major) minor, None).

(** The [for _, option := range options] loop of [NewDevice]. *)
Fixpoint NewDevice_range (d : GPUDevice) (options : list Option)
  : result error GPUDevice :=
  match options with
  | [] => Ok d
  | option :: options' =>
      match option d with
      | (_, Some err) => Err err
      | (d', None) => NewDevice_range d' options'
      end
  end.

Definition NewDevice (name vendorName : string)
  (maxClockFrequency maxMemorySize : Z) (options : list Option)
  : result error device :=
  let d := {| Name := name; VendorName := vendorName; VendorId := 0;
              MaxMemorySize := maxMemorySize;
              MaxClockFrequency := maxClockFrequency;
              OpenCLDeviceVersionMajor := 0;
              OpenCLDeviceVersionMinor := 0 |} in
  match NewDevice_range d options with
  | Err err => Err err
  | Ok d => Ok (mkDevice d)
  end.

(** The methods of [device]. *)
Definition device_Name (dev : device) : string :=
  let 'mkDevice d := dev in Name d.
Definition device_VendorId (bits : Z) (dev : device) : Z :=
  let 'mkDevice d := dev in to_uint bits (VendorId d).
Definition device_VendorName (dev : device) : string :=
  let 'mkDevice d := dev in VendorName d.
Definition device_MaxMemorySize (dev : device) : Z :=
  let 'mkDevice d := dev in MaxMemorySize d.
Definition device_MaxClockFrequency (bits : Z) (dev : device) : Z :=
  let 'mkDevice d := dev in to_uint bits (MaxClockFrequency d).
Definition device_OpenCLDeviceVersionMajor (dev : device) : Z :=
  let 'mkDevice d := dev in OpenCLDeviceVersionMajor d.
Definition device_OpenCLDeviceVersionMinor (dev : device) : Z :=
  let 'mkDevice d := dev in OpenCLDeviceVersionMinor d.

(** The options this package makes. *)
Inductive builtin (Sscanf : string -> scan) : Option -> Prop :=
  | builtin_VendorId id : builtin Sscanf (WithVendorId id)
  | builtin_Version version :
      builtin Sscanf (WithOpenClDeviceVersion Sscanf version)
  | builtin_VersionSpec major minor :
      builtin Sscanf (WithOpenClDeviceVersionSpec major minor).

End gpu.

(** ** Package hub: the calls of a probe that reach the ledger *)
Module hub_calls.
Import hub.

(** A call of a method of [blockchain.Blockchainer]. *)
Inductive call :=
  | CallGetOpenedDeal (self counterparty : string)
  | CallGetClosedDeal (self counterparty : string)
  | CallGetDealInfo (id : Z)
  | CallAcceptDeal (k : PrivateKey) (id : Z).

Section eth.
Variable selfHex : PrivateKey -> string.
Variable ParseBigInt : string -> result error Z.

(** [findDealOnce] with the list of the ledger calls it makes, in the
    order it makes them. *)
Fixpoint findDealOnce_range_calls (w : Blockchainer) (hash : string)
  (IDs : list Z) : option Deal * list call :=
  match IDs with
  | [] => (None, [])
  | id :: IDs' =>
      match GetDealInfo w id with
      | Err _ =>
          let '(r, cs) := findDealOnce_range_calls w hash IDs' in
          (r, CallGetDealInfo id :: cs)
      | Ok deal =>
          if DealStatus_eqb (Status deal) PENDING
             && String.eqb (SpecificationHash deal) hash
          then (Some deal, [CallGetDealInfo id])
          else
            let '(r, cs) := findDealOnce_range_calls w hash IDs' in
            (r, CallGetDealInfo id :: cs)
      end
  end.

Definition findDealOnce_calls (e : eth) (w : Blockchainer)
  (addr hash : string) : option Deal * list call :=
  match GetOpenedDeal w (selfHex (key e)) addr with
  | Err _ => (None, [CallGetOpenedDeal (selfHex (key e)) addr])
  | Ok IDs =>
      let '(r, cs) := findDealOnce_range_calls w hash IDs in
      (r, CallGetOpenedDeal (selfHex (key e)) addr :: cs)
  end.

End eth.
End hub_calls.

(** ** Further values to run the theorems on *)
Module sample_more.
Import sample.

(** Two more addresses, and a directory with three records last seen at
    0 s, 30 s and 50 s. *)
Definition addrB : Address := 177%N.
Definition addrC : Address := 178%N.

Definition peerOf (a : Address) : locator.Context :=
  {| locator.ctx_peer := Some {| locator.AuthInfo_of := locator.EthAuthInfo a |} |}.

Definition threeNodes : locator.Locator :=
  let l0 := locator.NewLocator config in
  let l1 := (locator.Announce 0 l0 (peerOf addr)
               {| locator.AnnounceRequest_IpAddr := E1 |}).1 in
  let l2 := (locator.Announce (30 * second) l1 (peerOf addrB)
               {| locator.AnnounceRequest_IpAddr := E2 |}).1 in
  (locator.Announce (50 * second) l2 (peerOf addrC)
     {| locator.AnnounceRequest_IpAddr := E1 |}).1.

(** A certificate rotator that works, and one that does not. *)
Definition rotatorOk (k : locator_ctor.PrivateKey)
  : option locator_ctor.error := None.
Definition rotatorDown (k : locator_ctor.PrivateKey)
  : option locator_ctor.error :=
  Some (locator_ctor.certError "cannot write certificate").

(** A scanner that knows two version strings. *)
Definition scanWords (version : string) : gpu.scan :=
  if String.eqb version "OpenCL 1.2 CUDA" then
    {| gpu.scan_n := 3; gpu.scan_major := 1; gpu.scan_minor := 2;
       gpu.scan_failed := false |}
  else if String.eqb version "OpenCL 2.0" then
    {| gpu.scan_n := 2; gpu.scan_major := 2; gpu.scan_minor := 0;
       gpu.scan_failed := true |}
  else
    {| gpu.scan_n := 0; gpu.scan_major := 0; gpu.scan_minor := 0;
       gpu.scan_failed := true |}.

(** The moment at which the context is cancelled while a tick is due,
    with the runtime's draw. *)
Definition raceAt (t : Time) (drawn : hub.branch) (w : hub.Blockchainer)
  : hub.moment :=
  {| hub.at_time := t; hub.tickReady := true;
     hub.ctxErr := Some hub.Canceled; hub.pick := drawn; hub.bc := w |}.

(** A ledger on which deal 9 is pending, listed as opened, and readable. *)
Definition pendingLedger : hub.Blockchainer :=
  {| hub.GetOpenedDeal := λ _ _, Ok [9];
     hub.GetClosedDeal := λ _ _, Ok [];
     hub.GetDealInfo := dealInfo;
     hub.AcceptDeal := λ _ _, None |}.



End sample_more.

(** ** Arithmetic of the machine integers *)

Lemma wrap_uint64_small (z : Z) : 0 <= z < 2 ^ 64 -> wrap_uint64 z = z.
Proof. intros H. unfold wrap_uint64. by apply Z.mod_small. Qed.

Lemma wrap_int64_small (z : Z) :
  min_int64 <= z <= max_int64 -> wrap_int64 z = z.
Proof.
  unfold wrap_int64, min_int64, max_int64. intros H.
  rewrite Z.mod_small; lia.
Qed.

(** Negating a duration is exact unless it is the least int64. *)
Lemma Duration_neg (d : Duration) :
  min_int64 < d <= max_int64 -> Duration_mul (-1) d = - d.
Proof.
  intros H. unfold Duration_mul. rewrite wrap_int64_small.
  - lia.
  - unfold min_int64, max_int64 in *. lia.
Qed.

(** ** The directory *)
Module locator_facts.
Import locator.

Lemma extractEthAddr_frame (l l' : Locator) (ctx : Context) :
  extractEthAddr l ctx = extractEthAddr l' ctx.
Proof. reflexivity. Qed.

Lemma putAnnounce_lookup now l n :
  db (putAnnounce now l n) !! ethAddr n = Some (set_ts n now).
Proof. unfold putAnnounce. cbn. apply lookup_insert_eq. Qed.

Lemma putAnnounce_lookup_ne now l n a :
  a ≠ ethAddr n -> db (putAnnounce now l n) !! a = db l !! a.
Proof. intros Hne. unfold putAnnounce. cbn. by apply lookup_insert_ne. Qed.

Lemma putAnnounce_twice t1 t2 l n1 n2 :
  ethAddr n1 = ethAddr n2 ->
  putAnnounce t2 (putAnnounce t1 l n1) n2 = putAnnounce t2 l n2.
Proof.
  intros Heq. unfold putAnnounce, set_db. cbn. f_equal.
  rewrite Heq. apply insert_insert_eq.
Qed.

Lemma Announce_authenticated now l ctx req a :
  extractEthAddr l ctx = (a, None) ->
  Announce now l ctx req =
    (putAnnounce now l
       {| ethAddr := a; ipAddr := AnnounceRequest_IpAddr req; ts := 0 |},
     Ok mkEmpty).
Proof. intros H. unfold Announce. by rewrite H. Qed.

(** *** One pass of the sweep loop *)

Lemma sweepEntry_foldl (dl : Time) (order : list Address) :
  ∀ (m : gmap Address node) (d k : Z),
    NoDup order ->
    (∀ a, a ∈ order -> is_Some (m !! a)) ->
    0 <= d -> 0 <= k -> d + k + Z.of_nat (length order) < 2 ^ 64 ->
    ∃ m' d' k',
      foldl (sweepEntry dl) (m, d, k) order = (m', d', k')
      ∧ (∀ a, a ∈ order -> m' !! a = live dl (m !! a))
      ∧ (∀ a, a ∉ order -> m' !! a = m !! a)
      ∧ d' - d = Z.of_nat (size m) - Z.of_nat (size m')
      ∧ (d' - d) + (k' - k) = Z.of_nat (length order)
      ∧ d <= d' ∧ k <= k'.
Proof.
  induction order as [|x xs IH]; intros m d k Hnd Hin Hd Hk Hlen.
  - exists m, d, k. cbn. repeat split; try lia.
    intros a Ha. by apply elem_of_nil in Ha.
  - apply NoDup_cons in Hnd as [Hx Hnd].
    destruct (Hin x) as [n Hn]; [left|].
    cbn [foldl]. unfold sweepEntry at 2. rewrite Hn.
    cbn [length] in Hlen.
    destruct (Time_Before (ts n) dl) eqn:Hb.
    + rewrite wrap_uint64_small by lia.
      destruct (IH (delete x m) (d + 1) k) as (m' & d' & k' & Hf & Hi & Ho & Hs & Hc & Hd' & Hk');
        [done| |lia|lia|lia|].
      { intros a Ha. rewrite lookup_delete_ne; [|by intros ->].
        apply Hin. by right. }
      exists m', d', k'. split; [done|].
      assert (Hsz : size (delete x m) = pred (size m))
        by (apply map_size_delete_Some; eauto).
      assert (Hpos : (0 < size m)%nat).
      { destruct (size m) eqn:E; [|lia].
        apply map_size_empty_inv in E. subst m. by rewrite lookup_empty in Hn. }
      rewrite Hsz in Hs.
      repeat split; cbn [length]; try lia.
      * intros a Ha. apply elem_of_cons in Ha as [->|Ha].
        -- rewrite Ho by done. rewrite lookup_delete_eq, Hn. cbn. by rewrite Hb.
        -- rewrite Hi by done. rewrite lookup_delete_ne; [done|by intros ->].
      * intros a Ha. apply not_elem_of_cons in Ha as [Hne Ha].
        rewrite Ho by done. by rewrite lookup_delete_ne.
    + rewrite wrap_uint64_small by lia.
      destruct (IH m d (k + 1)) as (m' & d' & k' & Hf & Hi & Ho & Hs & Hc & Hd' & Hk');
        [done| |lia|lia|lia|].
      { intros a Ha. apply Hin. by right. }
      exists m', d', k'. split; [done|].
      repeat split; cbn [length]; try lia.
      * intros a Ha. apply elem_of_cons in Ha as [->|Ha].
        -- rewrite Ho by done. rewrite Hn. cbn. by rewrite Hb.
        -- by apply Hi.
      * intros a Ha. apply not_elem_of_cons in Ha as [Hne Ha]. by apply Ho.
Qed.

Lemma range_order_canonical m : range_order m (map_to_list m).*1.
Proof. unfold range_order. reflexivity. Qed.

Lemma range_order_NoDup m order : range_order m order -> NoDup order.
Proof.
  intros H. unfold range_order in H. rewrite H.
  apply NoDup_fst_map_to_list.
Qed.

Lemma range_order_elem m order a :
  range_order m order -> a ∈ order ↔ is_Some (m !! a).
Proof.
  intros H. unfold range_order in H. rewrite H.
  rewrite list_elem_of_fmap. split.
  - intros [[a' n] [-> Hin]]. apply elem_of_map_to_list in Hin. eauto.
  - intros [n Hn]. exists (a, n). split; [done|].
    by apply elem_of_map_to_list.
Qed.

Lemma range_order_length m order :
  range_order m order -> length order = size m.
Proof.
  intros H. unfold range_order in H. rewrite H.
  by rewrite length_fmap, length_map_to_list.
Qed.

(** The sweep, whatever order the [range] takes: the map is filtered and
    the counters count what is left and what is gone. *)
Lemma traverseAndCleanIn_filter (l : Locator) (now : Time)
  (order : list Address) :
  range_order (db l) order ->
  min_int64 < NodeTTL (conf l) <= max_int64 ->
  Z.of_nat (size (db l)) <= max_int64 ->
  ∃ l' log,
    traverseAndCleanIn order now l = (l', log)
    ∧ db l' = filter (λ kv, ¬ ts kv.2 < now - NodeTTL (conf l)) (db l)
    ∧ conf l' = conf l
    ∧ total log = Z.of_nat (size (db l))
    ∧ keep log = Z.of_nat (size (db l'))
    ∧ del log = Z.of_nat (size (db l)) - Z.of_nat (size (db l')).
Proof.
  intros Hord Httl Hsz. unfold traverseAndCleanIn.
  rewrite Duration_neg by done.
  set (dl := Time_Add now (- NodeTTL (conf l))).
  pose proof (range_order_length _ _ Hord) as Hlen.
  destruct (sweepEntry_foldl dl order (db l) 0 0)
    as (m' & d' & k' & Hf & Hi & Ho & Hs & Hc & Hd' & Hk').
  - by eapply range_order_NoDup.
  - intros a Ha. by apply (range_order_elem _ _ _ Hord).
  - lia.
  - lia.
  - unfold max_int64 in Hsz. lia.
  - rewrite Hf. eexists _, _. split; [reflexivity|]. cbn.
    repeat split; try lia.
    apply map_eq. intros a. rewrite map_lookup_filter.
    destruct (decide (a ∈ order)) as [Ha|Ha].
    + rewrite Hi by done. destruct (db l !! a) as [n|]; [|done]. cbn.
      unfold Time_Before, dl, Time_Add.
      destruct (Z.ltb_spec (ts n) (now + - NodeTTL (conf l))).
      * rewrite option_guard_False; [done|]. lia.
      * rewrite option_guard_True; [done|]. lia.
    + rewrite Ho by done.
      destruct (db l !! a) as [n|] eqn:Hn; [|done].
      exfalso. apply Ha. apply (range_order_elem _ _ _ Hord). eauto.
Qed.

Lemma traverseAndClean_evicts (l : Locator) (now : Time) (a : Address)
  (n : node) :
  min_int64 < NodeTTL (conf l) <= max_int64 ->
  Z.of_nat (size (db l)) <= max_int64 ->
  db l !! a = Some n ->
  ts n < now - NodeTTL (conf l) ->
  db (traverseAndClean now l).1 !! a = None.
Proof.
  intros Httl Hsz Hn Hts. unfold traverseAndClean.
  destruct (traverseAndCleanIn_filter l now _ (range_order_canonical _) Httl Hsz)
    as (l' & log & -> & Hdb & _). cbn. rewrite Hdb.
  apply map_lookup_filter_None. right. intros n' Hn' Hkeep.
  rewrite Hn in Hn'. injection Hn' as <-. by apply Hkeep.
Qed.

(** A further tick of the janitor is a further sweep. *)
Lemma cleanExpiredNodes_snoc (ticks : list Time) (now : Time) (l : Locator) :
  cleanExpiredNodes (ticks ++ [now]) l =
    (traverseAndClean now (cleanExpiredNodes ticks l)).1.
Proof. unfold cleanExpiredNodes. by rewrite foldl_app. Qed.

Section Resolve.
Variable IsHexAddress : string -> bool.
Variable HexToAddress : string -> Address.
Abbreviation Resolve := (Resolve IsHexAddress HexToAddress).

Lemma Resolve_found l s n :
  IsHexAddress s = true -> db l !! HexToAddress s = Some n ->
  Resolve l {| EthAddr := s |} = (l, Ok {| ResolveReply_IpAddr := ipAddr n |}).
Proof.
  intros Hs Hn. unfold Resolve, locator.Resolve, getResolve. cbn.
  by rewrite Hs, Hn.
Qed.

Lemma Resolve_missing l s :
  IsHexAddress s = true -> db l !! HexToAddress s = None ->
  Resolve l {| EthAddr := s |} = (l, Err errNodeNotFound).
Proof.
  intros Hs Hn. unfold Resolve, locator.Resolve, getResolve. cbn.
  by rewrite Hs, Hn.
Qed.

Lemma Resolve_state l req : (Resolve l req).1 = l.
Proof.
  unfold Resolve, locator.Resolve, getResolve.
  destruct (negb _); [done|]. by destruct (db l !! _).
Qed.

(** C1. For an identity [A], the hex string [s] of [A] and endpoint
    lists [E1], [E2]: after [Announce(A,E1)], [Resolve(s)] returns
    exactly [E1]; after a further [Announce(A,E2)], [Resolve(s)] returns
    exactly [E2], and the directory is the one a lone [Announce(A,E2)]
    would have left: nothing of [E1] remains. *)
Theorem Announce_Resolve_last_write_wins
  (l : Locator) (ctx1 ctx2 : Context) (A : Address) (s : string)
  (E1 E2 : list string) (t1 t2 : Time) :
  extractEthAddr l ctx1 = (A, None) ->
  extractEthAddr l ctx2 = (A, None) ->
  IsHexAddress s = true ->
  HexToAddress s = A ->
  let l1 := (Announce t1 l ctx1 {| AnnounceRequest_IpAddr := E1 |}).1 in
  let l2 := (Announce t2 l1 ctx2 {| AnnounceRequest_IpAddr := E2 |}).1 in
  Resolve l1 {| EthAddr := s |} = (l1, Ok {| ResolveReply_IpAddr := E1 |})
  ∧ Resolve l2 {| EthAddr := s |} = (l2, Ok {| ResolveReply_IpAddr := E2 |})
  ∧ l2 = (Announce t2 l ctx2 {| AnnounceRequest_IpAddr := E2 |}).1.
Proof.
  intros H1 H2 Hs HA l1 l2. subst l2 l1.
  rewrite (Announce_authenticated t1 l ctx1 _ A H1). cbn [fst].
  set (l1 := putAnnounce t1 l _).
  rewrite (extractEthAddr_frame l l1 ctx2) in H2.
  rewrite (Announce_authenticated t2 l1 ctx2 _ A H2). cbn [fst].
  rewrite (extractEthAddr_frame l1 l ctx2) in H2.
  rewrite (Announce_authenticated t2 l ctx2 _ A H2). cbn [fst].
  subst l1.
  split; [|split].
  - rewrite (Resolve_found _ s (set_ts {| ethAddr := A; ipAddr := E1; ts := 0 |} t1));
      [done..|].
    rewrite HA. apply (putAnnounce_lookup t1 l {| ethAddr := A |}).
  - rewrite (Resolve_found _ s (set_ts {| ethAddr := A; ipAddr := E2; ts := 0 |} t2));
      [done..|].
    rewrite HA. apply (putAnnounce_lookup t2 _ {| ethAddr := A |}).
  - by apply putAnnounce_twice.
Qed.

(** C3. [Resolve] of a string that is not a hex address fails with the
    invalid-address error whatever the directory holds; [Resolve] of a
    well-formed address without a record fails with [errNodeNotFound],
    be it that the address was never announced (also in a fresh
    locator) or that the janitor evicted its record; the two errors
    differ, also in their messages. *)
Theorem Resolve_failures (l : Locator) (s : string) :
  (IsHexAddress s = false ->
     ∀ l', Resolve l' {| EthAddr := s |} = (l', Err (errInvalidEthAddress s)))
  ∧ (IsHexAddress s = true -> db l !! HexToAddress s = None ->
     Resolve l {| EthAddr := s |} = (l, Err errNodeNotFound))
  ∧ (IsHexAddress s = true ->
     ∀ c, (Resolve (NewLocator c) {| EthAddr := s |}).2 = Err errNodeNotFound)
  ∧ (IsHexAddress s = true ->
     min_int64 < NodeTTL (conf l) <= max_int64 ->
     Z.of_nat (size (db l)) <= max_int64 ->
     ∀ now n, db l !! HexToAddress s = Some n ->
       ts n < now - NodeTTL (conf l) ->
       (Resolve (traverseAndClean now l).1 {| EthAddr := s |}).2
         = Err errNodeNotFound)
  ∧ errInvalidEthAddress s ≠ errNodeNotFound
  ∧ Error (errInvalidEthAddress s) ≠ Error errNodeNotFound.
Proof.
  repeat split.
  - intros Hs l'. unfold Resolve, locator.Resolve. cbn. by rewrite Hs.
  - apply Resolve_missing.
  - intros Hs c. rewrite Resolve_missing; [done..|]. apply lookup_empty.
  - intros Hs Httl Hsz now n Hn Hts.
    rewrite Resolve_missing; [done..|].
    by eapply traverseAndClean_evicts.
  - discriminate.
  - cbn. discriminate.
Qed.

(** C10. [Resolve] gives back the locator it was given, found or not:
    no entry is added, removed or changed, no time stamp is touched; so
    any number of resolves leaves the state as it was, and a sweep after
    a resolve is the sweep without it. *)
Theorem Resolve_frame (l : Locator) (req : ResolveRequest) :
  (Resolve l req).1 = l
  ∧ db (Resolve l req).1 = db l
  ∧ (∀ reqs, foldl (λ l r, (Resolve l r).1) l reqs = l)
  ∧ (∀ now order,
       traverseAndCleanIn order now (Resolve l req).1
       = traverseAndCleanIn order now l).
Proof.
  split; [apply Resolve_state|]. split; [by rewrite Resolve_state|].
  split.
  - intros reqs. induction reqs as [|r reqs IH]; [done|].
    cbn. by rewrite Resolve_state.
  - intros now order. by rewrite Resolve_state.
Qed.
End Resolve.

(** The janitor keeps the configuration and never grows the map. *)
Lemma cleanExpiredNodes_conf_size (ticks : list Time) (l : Locator) :
  min_int64 < NodeTTL (conf l) <= max_int64 ->
  Z.of_nat (size (db l)) <= max_int64 ->
  conf (cleanExpiredNodes ticks l) = conf l
  ∧ Z.of_nat (size (db (cleanExpiredNodes ticks l))) <= max_int64.
Proof.
  revert l. induction ticks as [|t ticks IH]; intros l Httl Hsz; [done|].
  change (cleanExpiredNodes (t :: ticks) l)
    with (cleanExpiredNodes ticks (traverseAndClean t l).1).
  unfold traverseAndClean.
  destruct (traverseAndCleanIn_filter l t _ (range_order_canonical _) Httl Hsz)
    as (l1 & log & -> & Hdb & Hconf & _). cbn [fst].
  assert (Hsz1 : Z.of_nat (size (db l1)) <= max_int64).
  { rewrite Hdb.
    pose proof (map_size_filter
                  (λ kv : Address * node, ¬ ts kv.2 < t - NodeTTL (conf l))
                  (db l)). lia. }
  destruct (IH l1) as (Hc & Hs); [by rewrite Hconf|done|].
  split; [by rewrite Hc|done].
Qed.

(** C2. On every tick of the janitor, whatever state [before] its earlier
    ticks have left and whatever order the range over the map takes: the
    tick's sweep returns, the janitor's state after the tick is the
    sweep's, the sweep deletes exactly the entries with
    [ts < now - NodeTTL] and keeps the others as they are; [total] is the
    number of entries before the sweep, [keep] the number left, [del] the
    number gone, and [keep + del = total]. *)
Theorem traverseAndClean_sweeps (l : Locator) (pre : list Time) (now : Time)
  (order : list Address) :
  min_int64 < NodeTTL (conf l) <= max_int64 ->
  Z.of_nat (size (db l)) <= max_int64 ->
  range_order (db (cleanExpiredNodes pre l)) order ->
  let before := cleanExpiredNodes pre l in
  ∃ l' log,
    traverseAndClean now before = (l', log)
    ∧ traverseAndCleanIn order now before = (l', log)
    ∧ cleanExpiredNodes (pre ++ [now]) l = l'
    ∧ db l' = filter (λ kv, ¬ ts kv.2 < now - NodeTTL (conf l)) (db before)
    ∧ (∀ a n, db before !! a = Some n ->
         db l' !! a = if bool_decide (ts n < now - NodeTTL (conf l))
                      then None else Some n)
    ∧ (∀ a, db before !! a = None -> db l' !! a = None)
    ∧ conf l' = conf l
    ∧ total log = Z.of_nat (size (db before))
    ∧ keep log = Z.of_nat (size (db l'))
    ∧ del log = Z.of_nat (size (db before)) - Z.of_nat (size (db l'))
    ∧ keep log + del log = total log.
Proof.
  intros Httl Hsz Hord before.
  destruct (cleanExpiredNodes_conf_size pre l Httl Hsz) as (Hcb & Hsb).
  fold before in Hord, Hcb, Hsb.
  assert (Httlb : min_int64 < NodeTTL (conf before) <= max_int64)
    by (by rewrite Hcb).
  destruct (traverseAndCleanIn_filter before now order Hord Httlb Hsb)
    as (l' & log & Hrun & Hdb & Hconf & Ht & Hk & Hd).
  destruct (traverseAndCleanIn_filter before now _
              (range_order_canonical _) Httlb Hsb)
    as (l0 & log0 & Hrun0 & Hdb0 & Hconf0 & Ht0 & Hk0 & Hd0).
  assert (Hl : l0 = l').
  { destruct l0, l'. cbn in *. congruence. }
  assert (Hlog : log0 = log).
  { subst l0. destruct log0, log. cbn in *. congruence. }
  subst l0 log0. rewrite Hcb in Hdb, Hconf.
  assert (Hjanitor : cleanExpiredNodes (pre ++ [now]) l = l').
  { rewrite cleanExpiredNodes_snoc. fold before.
    unfold traverseAndClean. by rewrite Hrun0. }
  exists l', log. repeat split; try done; try lia.
  - intros a n Hn. rewrite Hdb, map_lookup_filter, Hn. cbn.
    case_bool_decide.
    + by rewrite option_guard_False by tauto.
    + by rewrite option_guard_True.
  - intros a Hn. by rewrite Hdb, map_lookup_filter, Hn.
Qed.

(** C9. [extractEthAddr] fails with a gRPC status error in both failure
    cases: code [DataLoss] when the context carries no peer, code
    [Unauthenticated] when the peer's credential is not an [EthAuthInfo];
    otherwise it returns the wallet of the credential.  Its result does
    not depend on the locator, and an [Announce] whose extraction fails
    returns that error and leaves the locator as it was. *)
Theorem extractEthAddr_cases (l : Locator) (ctx : Context) :
  (ctx_peer ctx = None ->
     extractEthAddr l ctx
     = (zeroAddress, Some (statusError DataLoss "failed to get peer from ctx")))
  ∧ (∀ pr, ctx_peer ctx = Some pr ->
       (∀ w, AuthInfo_of pr ≠ EthAuthInfo w) ->
       extractEthAddr l ctx
       = (zeroAddress, Some (statusError Unauthenticated "wrong AuthInfo type")))
  ∧ (∀ pr w, ctx_peer ctx = Some pr -> AuthInfo_of pr = EthAuthInfo w ->
       extractEthAddr l ctx = (w, None))
  ∧ (∀ l', extractEthAddr l' ctx = extractEthAddr l ctx)
  ∧ (∀ now req err, (extractEthAddr l ctx).2 = Some err ->
       Announce now l ctx req = (l, Err err)).
Proof.
  unfold Announce, extractEthAddr. repeat split.
  - by intros ->.
  - intros pr -> Hno. destruct (AuthInfo_of pr) as [w| |]; [|done..].
    by destruct (Hno w).
  - by intros pr w -> ->.
  - intros now req err.
    destruct (ctx_peer ctx) as [pr|]; cbn.
    + destruct (AuthInfo_of pr); cbn; [done|by intros [= ->]..].
    + by intros [= ->].
Qed.

(** *** The theorems at work on a directory with one record *)

Import sample.

Lemma Announce_Resolve_last_write_wins_witness :
  let l1 := (Announce 0 (NewLocator config) ethPeer
               {| AnnounceRequest_IpAddr := E1 |}).1 in
  let l2 := (Announce (50 * second) l1 ethPeer
               {| AnnounceRequest_IpAddr := E2 |}).1 in
  Resolve common.IsHexAddress common.HexToAddress l1 {| EthAddr := addrHex |}
    = (l1, Ok {| ResolveReply_IpAddr := E1 |})
  ∧ Resolve common.IsHexAddress common.HexToAddress l2 {| EthAddr := addrHex |}
    = (l2, Ok {| ResolveReply_IpAddr := E2 |})
  ∧ l2 = (Announce (50 * second) (NewLocator config) ethPeer
            {| AnnounceRequest_IpAddr := E2 |}).1.
Proof.
  apply (Announce_Resolve_last_write_wins
           common.IsHexAddress common.HexToAddress
           (NewLocator config) ethPeer ethPeer addr addrHex E1 E2
           0 (50 * second)); vm_compute; reflexivity.
Defined.

Lemma traverseAndClean_sweeps_witness :
  ∃ l' log,
    traverseAndClean (95 * second)
      (cleanExpiredNodes [70 * second] sample_more.threeNodes) = (l', log)
    ∧ traverseAndCleanIn [sample_more.addrC; sample_more.addrB] (95 * second)
        (cleanExpiredNodes [70 * second] sample_more.threeNodes) = (l', log)
    ∧ cleanExpiredNodes [70 * second; 95 * second] sample_more.threeNodes = l'
    ∧ db l' !! sample_more.addrB = None
    ∧ db l' !! sample_more.addrC
      = Some {| ethAddr := sample_more.addrC; ipAddr := E1; ts := 50 * second |}
    ∧ total log = 2 ∧ keep log = 1 ∧ del log = 1.
Proof.
  destruct (traverseAndClean_sweeps sample_more.threeNodes [70 * second]
              (95 * second) [sample_more.addrC; sample_more.addrB])
    as (l' & log & Hrun & Hin & Hjan & Hdb & Hdel & Hnone & Hconf
        & Ht & Hk & Hd & Hsum).
  - vm_compute. split; [reflexivity | discriminate].
  - vm_compute. discriminate.
  - vm_compute. first [reflexivity | constructor].
  - exists l', log. split; [exact Hrun|]. split; [exact Hin|].
    split; [exact Hjan|].
    vm_compute in Hrun. injection Hrun as <- <-.
    vm_compute. repeat split.
Defined.

Lemma Resolve_failures_witness :
  Resolve common.IsHexAddress common.HexToAddress oneNode
    {| EthAddr := "not an address" |}
    = (oneNode, Err (errInvalidEthAddress "not an address"))
  ∧ Resolve common.IsHexAddress common.HexToAddress (NewLocator config)
      {| EthAddr := addrHex |}
    = (NewLocator config, Err errNodeNotFound)
  ∧ (Resolve common.IsHexAddress common.HexToAddress
       (traverseAndClean (70 * second) oneNode).1 {| EthAddr := addrHex |}).2
    = Err errNodeNotFound.
Proof.
  split; [|split].
  - apply (proj1 (Resolve_failures common.IsHexAddress common.HexToAddress
                    oneNode "not an address")).
    vm_compute. reflexivity.
  - apply (proj1 (proj2 (Resolve_failures common.IsHexAddress
                           common.HexToAddress (NewLocator config) addrHex)));
      vm_compute; reflexivity.
  - apply (proj1 (proj2 (proj2 (proj2
             (Resolve_failures common.IsHexAddress common.HexToAddress
                oneNode addrHex))))) with
      (n := {| ethAddr := addr; ipAddr := E1; ts := 0 |}).
    + vm_compute. reflexivity.
    + vm_compute. split; [reflexivity | discriminate].
    + vm_compute. discriminate.
    + vm_compute. reflexivity.
    + vm_compute. reflexivity.
Defined.

Lemma extractEthAddr_cases_witness :
  extractEthAddr oneNode noPeer
    = (zeroAddress, Some (statusError DataLoss "failed to get peer from ctx"))
  ∧ extractEthAddr oneNode tlsPeer
    = (zeroAddress, Some (statusError Unauthenticated "wrong AuthInfo type"))
  ∧ extractEthAddr oneNode ethPeer = (addr, None).
Proof.
  split; [|split].
  - apply (proj1 (extractEthAddr_cases oneNode noPeer)). reflexivity.
  - apply (proj1 (proj2 (extractEthAddr_cases oneNode tlsPeer))
             {| AuthInfo_of := otherAuthInfo "tls" |}).
    + reflexivity.
    + intros w. simpl. discriminate.
  - apply (proj1 (proj2 (proj2 (extractEthAddr_cases oneNode ethPeer)))
             {| AuthInfo_of := EthAuthInfo addr |}); reflexivity.
Defined.

End locator_facts.

(** ** The deal watcher *)
Module hub_facts.
Import hub.

Arguments withTimeout_Err : simpl never.

Lemma DealStatus_eqb_eq (a b : DealStatus) : DealStatus_eqb a b = true ↔ a = b.
Proof. destruct a, b; cbn; split; intros H; done. Qed.

Lemma select_TimerC tick done drawn :
  select tick done drawn = Some TimerC -> tick = true.
Proof. by destruct tick, done. Qed.

Lemma select_CtxDone tick done drawn :
  select tick done drawn = Some CtxDone -> done = true.
Proof. by destruct tick, done. Qed.

(** Go's [select] has no preference among ready cases. *)
Lemma select_both_ready drawn : select true true drawn = Some drawn.
Proof. reflexivity. Qed.

Lemma withTimeout_Err_cause deadline prev m err :
  withTimeout_Err deadline prev m = Some err ->
  prev = Some err ∨ ctxErr m = Some err ∨ err = DeadlineExceeded.
Proof.
  unfold withTimeout_Err. destruct prev as [e|]; [by left|].
  destruct (ctxErr m) as [e|]; [by right; left|].
  destruct (deadline <=? at_time m); [|done].
  intros [= <-]. by right; right.
Qed.

Lemma withTimeout_Err_due deadline prev m :
  deadline <= at_time m -> is_Some (withTimeout_Err deadline prev m).
Proof.
  intros H. unfold withTimeout_Err. destruct prev; [eauto|].
  destruct (ctxErr m); [eauto|].
  destruct (Z.leb_spec deadline (at_time m)); [eauto|lia].
Qed.

Section eth.
Variable selfHex : PrivateKey -> string.
Variable ParseBigInt : string -> result error Z.

Abbreviation findDealOnce := (findDealOnce selfHex).
Abbreviation findDeals_loop := (findDeals_loop selfHex).
Abbreviation findDeals := (findDeals selfHex).
Abbreviation WaitForDealCreated := (WaitForDealCreated selfHex).
Abbreviation WaitForDealClosed := (WaitForDealClosed selfHex).
Abbreviation GetDeal := (GetDeal selfHex ParseBigInt).

(** *** One probe of the discovery *)

Lemma findDealOnce_range_Some w hash IDs deal :
  findDealOnce_range w hash IDs = Some deal ↔
  ∃ pre id post,
    IDs = pre ++ id :: post
    ∧ GetDealInfo w id = Ok deal
    ∧ Status deal = PENDING ∧ SpecificationHash deal = hash
    ∧ ∀ id' d, id' ∈ pre -> GetDealInfo w id' = Ok d ->
        ¬ (Status d = PENDING ∧ SpecificationHash d = hash).
Proof.
  induction IDs as [|id IDs IH]; cbn.
  - split; [done|]. intros (pre & id & post & H & _). by destruct pre.
  - destruct (GetDealInfo w id) as [d|e] eqn:Hinfo.
    + destruct (DealStatus_eqb (Status d) PENDING
                && String.eqb (SpecificationHash d) hash) eqn:Hm.
      * apply andb_true_iff in Hm as [Hst Hh].
        apply DealStatus_eqb_eq in Hst. apply String.eqb_eq in Hh.
        split.
        -- intros [= <-]. exists [], id, IDs. repeat split; try done.
           intros id' d' Hin. by apply elem_of_nil in Hin.
        -- intros (pre & id0 & post & Heq & Hi & Hs & Hh' & Hpre).
           destruct pre as [|p pre]; cbn in Heq; injection Heq as <- ->.
           ++ congruence.
           ++ exfalso. apply (Hpre id d); [left|done|done].
      * rewrite IH. split.
        -- intros (pre & id0 & post & -> & Hi & Hs & Hh & Hpre).
           exists (id :: pre), id0, post. repeat split; try done.
           intros id' d' Hin Hi' [Hs' Hh'].
           apply elem_of_cons in Hin as [->|Hin].
           ++ rewrite Hinfo in Hi'. injection Hi' as <-.
              apply DealStatus_eqb_eq in Hs'. apply String.eqb_eq in Hh'.
              by rewrite Hs', Hh' in Hm.
           ++ by apply (Hpre id' d').
        -- intros (pre & id0 & post & Heq & Hi & Hs & Hh & Hpre).
           destruct pre as [|p pre]; cbn in Heq; injection Heq as <- ->.
           ++ rewrite Hinfo in Hi. injection Hi as <-.
              apply DealStatus_eqb_eq in Hs. apply String.eqb_eq in Hh.
              by rewrite Hs, Hh in Hm.
           ++ exists pre, id0, post. repeat split; try done.
              intros id' d' Hin. apply Hpre. by right.
    + rewrite IH. split.
      * intros (pre & id0 & post & -> & Hi & Hs & Hh & Hpre).
        exists (id :: pre), id0, post. repeat split; try done.
        intros id' d' Hin Hi'.
        apply elem_of_cons in Hin as [->|Hin]; [congruence|].
        by apply (Hpre id' d').
      * intros (pre & id0 & post & Heq & Hi & Hs & Hh & Hpre).
        destruct pre as [|p pre]; cbn in Heq; injection Heq as <- ->.
        -- congruence.
        -- exists pre, id0, post. repeat split; try done.
           intros id' d' Hin. apply Hpre. by right.
Qed.

Lemma findDealOnce_Some e w addr hash deal :
  findDealOnce e w addr hash = Some deal ↔
  ∃ IDs pre id post,
    GetOpenedDeal w (selfHex (key e)) addr = Ok IDs
    ∧ IDs = pre ++ id :: post
    ∧ GetDealInfo w id = Ok deal
    ∧ Status deal = PENDING ∧ SpecificationHash deal = hash
    ∧ ∀ id' d, id' ∈ pre -> GetDealInfo w id' = Ok d ->
        ¬ (Status d = PENDING ∧ SpecificationHash d = hash).
Proof.
  unfold findDealOnce, hub.findDealOnce.
  destruct (GetOpenedDeal w (selfHex (key e)) addr) as [IDs|err].
  - rewrite findDealOnce_range_Some. split.
    + intros (pre & id & post & H). by exists IDs, pre, id, post.
    + intros (IDs' & pre & id & post & [= <-] & H). by exists pre, id, post.
  - split; [done|]. by intros (IDs' & pre & id & post & [=] & H).
Qed.

(** *** The loop of the discovery *)

(** A deal the loop returns was found by the probe of a tick. *)
Lemma findDeals_loop_Ok e dl st addr hash ms deal :
  findDeals_loop e dl st addr hash ms = Returned (Ok deal) ->
  ∃ m, m ∈ ms ∧ tickReady m = true
       ∧ findDealOnce e (bc m) addr hash = Some deal.
Proof.
  revert st. induction ms as [|m ms IH]; intros st; cbn; [done|].
  destruct (select _ _ _) as [[]|] eqn:Hsel.
  - destruct (hub.findDealOnce selfHex e (bc m) addr hash) as [d|] eqn:Hp.
    + intros [= <-]. exists m. split; [left|]. split; [|done].
      by eapply select_TimerC.
    + intros H. destruct (IH _ H) as (m' & Hin & Hm'). exists m'.
      split; [by right|done].
  - destruct (withTimeout_Err dl st m); [done|].
    intros H. destruct (IH _ H) as (m' & Hin & Hm'). exists m'.
    split; [by right|done].
  - intros H. destruct (IH _ H) as (m' & Hin & Hm'). exists m'.
    split; [by right|done].
Qed.

(** An error the loop returns is the context's. *)
Lemma findDeals_loop_Err e dl st addr hash ms err :
  findDeals_loop e dl st addr hash ms = Returned (Err err) ->
  st = Some err ∨ err = DeadlineExceeded ∨ ∃ m, m ∈ ms ∧ ctxErr m = Some err.
Proof.
  revert st. induction ms as [|m ms IH]; intros st; cbn; [done|].
  assert (Hstep : ∀ r,
    findDeals_loop e dl (withTimeout_Err dl st m) addr hash ms = r ->
    r = Returned (Err err) ->
    st = Some err ∨ err = DeadlineExceeded
    ∨ ∃ m', m' ∈ m :: ms ∧ ctxErr m' = Some err).
  { intros r <- H. destruct (IH _ H) as [Hst|[->|(m' & Hin & Hm')]].
    - apply withTimeout_Err_cause in Hst as [?|[?|?]]; eauto.
      right; right. exists m. split; [left|done].
    - eauto.
    - right; right. exists m'. split; [by right|done]. }
  destruct (select _ _ _) as [[]|] eqn:Hsel.
  - destruct (hub.findDealOnce selfHex e (bc m) addr hash); [done|].
    by apply Hstep.
  - destruct (withTimeout_Err dl st m) as [e'|] eqn:Hw.
    + intros [= ->].
      apply withTimeout_Err_cause in Hw as [?|[?|?]]; eauto.
      right; right. exists m. split; [left|done].
    + intros H. eapply Hstep; [reflexivity|exact H].
  - by apply Hstep.
Qed.

(** Without a matching probe the loop ends with the context's error once
    the deadline has come and the select has nothing else to take. *)
Lemma findDeals_loop_due e dl st addr hash pre m post :
  (∀ m', m' ∈ pre -> findDealOnce e (bc m') addr hash = None) ->
  dl <= at_time m -> tickReady m = false ->
  ∃ err, findDeals_loop e dl st addr hash (pre ++ m :: post)
         = Returned (Err err).
Proof.
  intros Hno Hdue Htick. revert st.
  induction pre as [|p pre IH]; intros st; cbn.
  - destruct (withTimeout_Err_due dl st m Hdue) as [err Herr].
    rewrite Herr, Htick. cbn. eauto.
  - assert (Hp : hub.findDealOnce selfHex e (bc p) addr hash = None)
      by (apply Hno; left).
    assert (Hpre : ∀ m', m' ∈ pre -> findDealOnce e (bc m') addr hash = None)
      by (intros m' Hin; apply Hno; by right).
    destruct (select _ _ _) as [[]|].
    + rewrite Hp. by apply IH.
    + destruct (withTimeout_Err dl st p) as [err|] eqn:Hw; [eauto|].
      rewrite <- Hw. by apply IH.
    + by apply IH.
Qed.

(** A tick whose probe finds nothing leaves the loop running. *)
Lemma findDeals_loop_tick_miss e dl st addr hash m ms :
  select (tickReady m) (bool_decide (is_Some (withTimeout_Err dl st m)))
    (pick m) = Some TimerC ->
  findDealOnce e (bc m) addr hash = None ->
  findDeals_loop e dl st addr hash (m :: ms)
  = findDeals_loop e dl (withTimeout_Err dl st m) addr hash ms.
Proof. intros Hsel Hp. cbn. by rewrite Hsel, Hp. Qed.

(** Ticks under a live context whose probes find nothing, then a tick
    whose probe matches: the loop returns that deal. *)
Lemma findDeals_loop_found e dl addr hash pre m post deal :
  (∀ m', m' ∈ pre ->
     ctxErr m' = None ∧ at_time m' < dl
     ∧ findDealOnce e (bc m') addr hash = None) ->
  ctxErr m = None -> at_time m < dl -> tickReady m = true ->
  findDealOnce e (bc m) addr hash = Some deal ->
  findDeals_loop e dl None addr hash (pre ++ m :: post) = Returned (Ok deal).
Proof.
  intros Hpre Hctx Hat Htick Hp.
  assert (Hlive : ∀ m', ctxErr m' = None -> at_time m' < dl ->
            withTimeout_Err dl None m' = None).
  { intros m' H1 H2. unfold withTimeout_Err. rewrite H1.
    destruct (Z.leb_spec dl (at_time m')); [lia|done]. }
  induction pre as [|p pre IH]; cbn.
  - rewrite (Hlive m Hctx Hat), Htick. cbn. by rewrite Hp.
  - destruct (Hpre p) as (Hc & Ha & Hn); [left|].
    rewrite (Hlive p Hc Ha). rewrite Hn.
    assert (IH' := IH (λ m' Hin, Hpre m' (list_elem_of_further _ _ _ Hin))).
    by destruct (tickReady p); cbn.
Qed.

(** *** The loop of the lifecycle tracker *)

Lemma WaitForDealClosed_range_true w dealID ids :
  WaitForDealClosed_range w dealID ids = true ↔
  ∃ id d, id ∈ ids ∧ GetDealInfo w id = Ok d
          ∧ Id d = dealID ∧ Status d = CLOSED.
Proof.
  induction ids as [|id ids IH]; cbn.
  - split; [done|]. intros (id & d & Hin & _). by apply elem_of_nil in Hin.
  - destruct (GetDealInfo w id) as [d|err] eqn:Hi.
    + destruct (String.eqb (Id d) dealID && DealStatus_eqb (Status d) CLOSED)
        eqn:Hm.
      * apply andb_true_iff in Hm as [Hid Hst].
        apply String.eqb_eq in Hid. apply DealStatus_eqb_eq in Hst.
        split; [|done]. intros _. exists id, d. split; [left|done].
      * rewrite IH. split.
        -- intros (id' & d' & Hin & H). exists id', d'. split; [by right|done].
        -- intros (id' & d' & Hin & Hi' & Hid & Hst).
           apply elem_of_cons in Hin as [->|Hin]; [|by exists id', d'].
           rewrite Hi in Hi'. injection Hi' as <-.
           apply String.eqb_eq in Hid. apply DealStatus_eqb_eq in Hst.
           by rewrite Hid, Hst in Hm.
    + rewrite IH. split.
      * intros (id' & d' & Hin & H). exists id', d'. split; [by right|done].
      * intros (id' & d' & Hin & Hi' & H).
        apply elem_of_cons in Hin as [->|Hin]; [congruence|by exists id', d'].
Qed.

(** A call still blocked after [pre] goes on with what follows. *)
Lemma WaitForDealClosed_app e dealID buyerID pre ms :
  WaitForDealClosed e dealID buyerID pre = Blocked ->
  WaitForDealClosed e dealID buyerID (pre ++ ms)
  = WaitForDealClosed e dealID buyerID ms.
Proof.
  induction pre as [|p pre IH]; cbn; [done|].
  destruct (select _ _ _) as [[]|].
  - destruct (GetClosedDeal _ _ _); [|done].
    by destruct (WaitForDealClosed_range _ _ _).
  - by destruct (ctxErr p).
  - done.
Qed.

Lemma WaitForDealClosed_success e dealID buyerID ms :
  WaitForDealClosed e dealID buyerID ms = Returned None ->
  ∃ m ids, m ∈ ms ∧ tickReady m = true
    ∧ GetClosedDeal (bc m) (selfHex (key e)) buyerID = Ok ids
    ∧ WaitForDealClosed_range (bc m) dealID ids = true.
Proof.
  induction ms as [|m ms IH]; cbn; [done|].
  assert (Hnext : WaitForDealClosed e dealID buyerID ms = Returned None ->
    ∃ m' ids, m' ∈ m :: ms ∧ tickReady m' = true
      ∧ GetClosedDeal (bc m') (selfHex (key e)) buyerID = Ok ids
      ∧ WaitForDealClosed_range (bc m') dealID ids = true).
  { intros H. destruct (IH H) as (m' & ids & Hin & Hrest).
    exists m', ids. split; [by right|done]. }
  destruct (select _ _ _) as [[]|] eqn:Hsel; [| |done].
  - destruct (GetClosedDeal _ _ _) as [ids|err] eqn:Hc; [|done].
    destruct (WaitForDealClosed_range _ _ _) eqn:Hr; [|done].
    intros _. exists m, ids. split; [left|].
    split; [by eapply select_TimerC|done].
  - by destruct (ctxErr m).
Qed.

(** Without a matching probe so far, the loop ends with the context's
    error at a moment past the deadline at which the select takes the
    context's case: it must when no tick is due, it may when one is. *)
Lemma findDeals_loop_fails e dl st addr hash pre m post :
  (∀ m', m' ∈ pre -> findDealOnce e (bc m') addr hash = None) ->
  dl <= at_time m -> tickReady m = false ∨ pick m = CtxDone ->
  ∃ err, findDeals_loop e dl st addr hash (pre ++ m :: post)
         = Returned (Err err).
Proof.
  intros Hno Hdue Htake. revert st.
  induction pre as [|p pre IH]; intros st; cbn.
  - destruct (withTimeout_Err_due dl st m Hdue) as [err Herr].
    rewrite Herr. cbn.
    destruct Htake as [->| ->]; [by eauto|].
    destruct (tickReady m); cbn; eauto.
  - assert (Hp : hub.findDealOnce selfHex e (bc p) addr hash = None)
      by (apply Hno; left).
    assert (Hpre : ∀ m', m' ∈ pre -> findDealOnce e (bc m') addr hash = None)
      by (intros m' Hin; apply Hno; by right).
    destruct (select _ _ _) as [[]|].
    + rewrite Hp. by apply IH.
    + destruct (withTimeout_Err dl st p) as [err|] eqn:Hw; [eauto|].
      rewrite <- Hw. by apply IH.
    + by apply IH.
Qed.

(** After ticks under a live context whose probes found nothing, a tick
    that is due and drawn returns what its probe finds, be the context
    done by then or not. *)
Lemma findDeals_loop_drawn_tick e dl addr hash pre m post deal :
  (∀ m', m' ∈ pre ->
     ctxErr m' = None ∧ at_time m' < dl
     ∧ findDealOnce e (bc m') addr hash = None) ->
  tickReady m = true -> pick m = TimerC ->
  findDealOnce e (bc m) addr hash = Some deal ->
  findDeals_loop e dl None addr hash (pre ++ m :: post) = Returned (Ok deal).
Proof.
  intros Hpre Htick Hpick Hp.
  induction pre as [|p pre IH]; cbn.
  - rewrite Htick, Hpick, Hp. by destruct (bool_decide _).
  - destruct (Hpre p) as (Hc & Ha & Hn); [left|].
    assert (Hlive : withTimeout_Err dl None p = None).
    { unfold withTimeout_Err. rewrite Hc.
      destruct (Z.leb_spec dl (at_time p)); [lia|done]. }
    rewrite Hlive, Hn.
    assert (IH' := IH (λ m' Hin, Hpre m' (list_elem_of_further _ _ _ Hin))).
    by destruct (tickReady p); cbn.
Qed.

(** A probe all of whose queries fail finds nothing. *)
Lemma findDealOnce_range_all_fail w hash IDs :
  (∀ id, id ∈ IDs -> ∃ err, GetDealInfo w id = Err err) ->
  findDealOnce_range w hash IDs = None.
Proof.
  induction IDs as [|id IDs IH]; intros H; cbn; [done|].
  destruct (H id) as [err ->]; [left|].
  apply IH. intros id' Hin. apply H. by right.
Qed.

Lemma probe_fails_None e w addr hash :
  probe_fails w (selfHex (key e)) addr ->
  findDealOnce e w addr hash = None.
Proof.
  unfold findDealOnce, hub.findDealOnce.
  intros [[err ->]|(IDs & -> & _ & H)]; [done|].
  by apply findDealOnce_range_all_fail.
Qed.

(** C5, as the code has it.  [WaitForDealCreated] probes once before it
    selects: a deal the first probe finds is returned whatever comes
    after.  A probe asks for the deals opened between the own address and
    the counterparty and returns the first one, in the order the ledger
    listed them, whose info can be read and is PENDING with the requested
    hash.  A deal returned is the find of the first probe or of the probe
    of a tick; a tick whose probe matches, after ticks that did not,
    returns its find.  When no probe at all matches, no deal is returned.
    When no probe has matched so far and, past the deadline, the select
    takes the context's case (it must when no tick is due), the call fails
    with the context's error.  The deadline is not strict: a tick due at
    such a moment may be drawn instead, and a deal its probe finds is
    returned. *)
Theorem WaitForDealCreated_probes (e : eth) (now : Time) (w0 : Blockchainer)
  (request : DealRequest) (ms : list moment) :
  let addr := ByuerID request in
  let hash := SpecHash request in
  (∀ deal, findDealOnce e w0 addr hash = Some deal ->
     WaitForDealCreated e now w0 request ms = Returned (Ok deal))
  ∧ (∀ w deal, findDealOnce e w addr hash = Some deal ↔
       ∃ IDs pre id post,
         GetOpenedDeal w (selfHex (key e)) addr = Ok IDs
         ∧ IDs = pre ++ id :: post
         ∧ GetDealInfo w id = Ok deal
         ∧ Status deal = PENDING ∧ SpecificationHash deal = hash
         ∧ ∀ id' d, id' ∈ pre -> GetDealInfo w id' = Ok d ->
             ¬ (Status d = PENDING ∧ SpecificationHash d = hash))
  ∧ (∀ deal, WaitForDealCreated e now w0 request ms = Returned (Ok deal) ->
       findDealOnce e w0 addr hash = Some deal
       ∨ ∃ m, m ∈ ms ∧ tickReady m = true
              ∧ findDealOnce e (bc m) addr hash = Some deal)
  ∧ (∀ pre m post deal,
       ms = pre ++ m :: post ->
       findDealOnce e w0 addr hash = None ->
       (∀ m', m' ∈ pre ->
          ctxErr m' = None ∧ at_time m' < now + timeout e
          ∧ findDealOnce e (bc m') addr hash = None) ->
       ctxErr m = None -> at_time m < now + timeout e ->
       tickReady m = true ->
       findDealOnce e (bc m) addr hash = Some deal ->
       WaitForDealCreated e now w0 request ms = Returned (Ok deal))
  ∧ (findDealOnce e w0 addr hash = None ->
     (∀ m, m ∈ ms -> findDealOnce e (bc m) addr hash = None) ->
     ∀ deal, WaitForDealCreated e now w0 request ms ≠ Returned (Ok deal))
  ∧ (∀ pre m post,
       ms = pre ++ m :: post ->
       findDealOnce e w0 addr hash = None ->
       (∀ m', m' ∈ pre -> findDealOnce e (bc m') addr hash = None) ->
       now + timeout e <= at_time m ->
       tickReady m = false ∨ pick m = CtxDone ->
       ∃ err, WaitForDealCreated e now w0 request ms = Returned (Err err)
              ∧ (err = DeadlineExceeded
                 ∨ ∃ m', m' ∈ ms ∧ ctxErr m' = Some err))
  ∧ (∀ pre m post deal,
       ms = pre ++ m :: post ->
       findDealOnce e w0 addr hash = None ->
       (∀ m', m' ∈ pre ->
          ctxErr m' = None ∧ at_time m' < now + timeout e
          ∧ findDealOnce e (bc m') addr hash = None) ->
       now + timeout e <= at_time m ->
       tickReady m = true -> pick m = TimerC ->
       findDealOnce e (bc m) addr hash = Some deal ->
       WaitForDealCreated e now w0 request ms = Returned (Ok deal)).
Proof.
  intros addr hash. subst addr hash.
  unfold WaitForDealCreated, hub.WaitForDealCreated, hub.findDeals, Time_Add.
  split; [|split; [|split; [|split; [|split; [|split]]]]].
  - intros deal H. by rewrite H.
  - intros w deal. apply findDealOnce_Some.
  - intros deal.
    destruct (hub.findDealOnce selfHex e w0 _ _) as [d|] eqn:H0.
    + intros [= <-]. by left.
    + intros H. right. by eapply findDeals_loop_Ok.
  - intros pre m post deal -> H0 Hpre Hctx Hat Htick Hp.
    rewrite H0. by apply findDeals_loop_found.
  - intros H0 Hno. rewrite H0.
    intros deal H. apply findDeals_loop_Ok in H as (m & Hin & _ & Hm).
    rewrite (Hno m Hin) in Hm. done.
  - intros pre m post -> H0 Hno Hdue Htake. rewrite H0.
    destruct (findDeals_loop_fails e (now + timeout e) None
                (ByuerID request) (SpecHash request) pre m post Hno Hdue Htake)
      as [err Herr].
    exists err. split; [done|].
    apply findDeals_loop_Err in Herr as [?|[?|?]]; [done|eauto..].
  - intros pre m post deal -> H0 Hpre _ Htick Hpick Hp.
    rewrite H0. by apply findDeals_loop_drawn_tick.
Qed.

(** C6, as the code has it.  A failed query makes no probe fatal: a failed
    listing of the opened deals makes the probe find nothing, a failed read
    of one deal's info passes over that deal only, and after a tick whose
    probe found nothing the loop goes on.  When every probe so far has run
    into failed queries and, past the deadline, the select takes the
    context's case (it must when no tick is due), the call fails, and with
    the context's error.  An error [WaitForDealCreated] returns is never
    taken from the ledger: it is [DeadlineExceeded] or the error of the
    context the tracker was made with. *)
Theorem findDeals_ledger_errors_transient (e : eth) (now : Time)
  (w0 : Blockchainer) (addr hash : string) (ms : list moment) :
  (∀ w err, GetOpenedDeal w (selfHex (key e)) addr = Err err ->
     findDealOnce e w addr hash = None)
  ∧ (∀ w id IDs err, GetDealInfo w id = Err err ->
       findDealOnce_range w hash (id :: IDs) = findDealOnce_range w hash IDs)
  ∧ (∀ dl st m ms',
       select (tickReady m) (bool_decide (is_Some (withTimeout_Err dl st m)))
         (pick m) = Some TimerC ->
       findDealOnce e (bc m) addr hash = None ->
       findDeals_loop e dl st addr hash (m :: ms')
       = findDeals_loop e dl (withTimeout_Err dl st m) addr hash ms')
  ∧ (∀ err, findDeals e now w0 addr hash ms = Returned (Err err) ->
       err = DeadlineExceeded ∨ ∃ m, m ∈ ms ∧ ctxErr m = Some err)
  ∧ (∀ pre m post,
       ms = pre ++ m :: post ->
       probe_fails w0 (selfHex (key e)) addr ->
       (∀ m', m' ∈ pre -> probe_fails (bc m') (selfHex (key e)) addr) ->
       now + timeout e <= at_time m ->
       tickReady m = false ∨ pick m = CtxDone ->
       ∃ err, findDeals e now w0 addr hash ms = Returned (Err err)
              ∧ (err = DeadlineExceeded
                 ∨ ∃ m', m' ∈ ms ∧ ctxErr m' = Some err)).
Proof.
  split; [|split; [|split; [|split]]].
  - intros w err H. unfold findDealOnce, hub.findDealOnce. by rewrite H.
  - intros w id IDs err H. cbn. by rewrite H.
  - intros dl st m ms'. apply findDeals_loop_tick_miss.
  - intros err. unfold findDeals, hub.findDeals.
    destruct (hub.findDealOnce selfHex e w0 addr hash); [done|].
    intros H. apply findDeals_loop_Err in H as [?|[?|?]]; [done|eauto..].
  - intros pre m post -> H0 Hpre Hdue Htake.
    unfold findDeals, hub.findDeals, Time_Add.
    rewrite (probe_fails_None e w0 addr hash H0).
    destruct (findDeals_loop_fails e (now + timeout e) None addr hash
                pre m post) as [err Herr]; [|done..|].
    { intros m' Hin. apply probe_fails_None. by apply Hpre. }
    exists err. split; [done|].
    apply findDeals_loop_Err in Herr as [?|[?|?]]; [done|eauto..].
Qed.

(** C7, as the code has it.  On a tick, a failed listing of the closed
    deals ends the call with that error at once; a failed read of one
    deal's info passes over that id and the polling goes on; [nil] is
    returned only for a tick on which an id listed as closed has info with
    the awaited id and status CLOSED, and is returned on such a tick. *)
Theorem WaitForDealClosed_ledger_errors (e : eth) (dealID : DealID)
  (buyerID : string) :
  (∀ pre m post err,
     WaitForDealClosed e dealID buyerID pre = Blocked ->
     select (tickReady m) (bool_decide (is_Some (ctxErr m))) (pick m)
       = Some TimerC ->
     GetClosedDeal (bc m) (selfHex (key e)) buyerID = Err err ->
     WaitForDealClosed e dealID buyerID (pre ++ m :: post)
     = Returned (Some err))
  ∧ (∀ w id ids err, GetDealInfo w id = Err err ->
       WaitForDealClosed_range w dealID (id :: ids)
       = WaitForDealClosed_range w dealID ids)
  ∧ (∀ ms, WaitForDealClosed e dealID buyerID ms = Returned None ->
       ∃ m ids id d, m ∈ ms ∧ tickReady m = true
         ∧ GetClosedDeal (bc m) (selfHex (key e)) buyerID = Ok ids
         ∧ id ∈ ids ∧ GetDealInfo (bc m) id = Ok d
         ∧ Id d = dealID ∧ Status d = CLOSED)
  ∧ (∀ pre m post ids id d,
       WaitForDealClosed e dealID buyerID pre = Blocked ->
       select (tickReady m) (bool_decide (is_Some (ctxErr m))) (pick m)
         = Some TimerC ->
       GetClosedDeal (bc m) (selfHex (key e)) buyerID = Ok ids ->
       id ∈ ids -> GetDealInfo (bc m) id = Ok d ->
       Id d = dealID -> Status d = CLOSED ->
       WaitForDealClosed e dealID buyerID (pre ++ m :: post) = Returned None).
Proof.
  split; [|split; [|split]].
  - intros pre m post err Hpre Hsel Hc.
    rewrite WaitForDealClosed_app by done. cbn. by rewrite Hsel, Hc.
  - intros w id ids err H. cbn. by rewrite H.
  - intros ms H.
    apply WaitForDealClosed_success in H as (m & ids & Hin & Htick & Hc & Hr).
    apply WaitForDealClosed_range_true in Hr as (id & d & Hid & Hrest).
    by exists m, ids, id, d.
  - intros pre m post ids id d Hpre Hsel Hc Hin Hi Hid Hst.
    rewrite WaitForDealClosed_app by done. cbn. rewrite Hsel, Hc.
    assert (Hr : WaitForDealClosed_range (bc m) dealID ids = true).
    { apply WaitForDealClosed_range_true. by exists id, d. }
    by rewrite Hr.
Qed.

(** C8. While [WaitForDealClosed] is parked in its [select] with no tick
    due, a context that is done makes it return the context's error at
    that scheduling opportunity: no tick is waited for and the ledger is
    not asked, whatever the moments after would have brought. *)
Theorem WaitForDealClosed_cancel (e : eth) (dealID : DealID)
  (buyerID : string) (pre : list moment) (m : moment) (post : list moment)
  (err : error) :
  WaitForDealClosed e dealID buyerID pre = Blocked ->
  tickReady m = false ->
  ctxErr m = Some err ->
  WaitForDealClosed e dealID buyerID (pre ++ m :: post) = Returned (Some err).
Proof.
  intros Hpre Htick Herr.
  rewrite WaitForDealClosed_app by done. cbn. by rewrite Htick, Herr.
Qed.

(** The paths of [GetDeal]: an error of the parsing of the id or of the
    ledger query is returned as it is; a deal the ledger gives is returned
    when its supplier is the own address and its status is ACCEPTED, and
    [errDealNotFound] is returned when it fails either test. *)
Lemma GetDeal_cases (e : eth) (w : Blockchainer) (id : string) :
  (∀ err, ParseBigInt id = Err err -> GetDeal e w id = Err err)
  ∧ (∀ bigID err, ParseBigInt id = Ok bigID ->
       GetDealInfo w bigID = Err err -> GetDeal e w id = Err err)
  ∧ (∀ bigID deal, ParseBigInt id = Ok bigID ->
       GetDealInfo w bigID = Ok deal ->
       ¬ (SupplierID deal = selfHex (key e) ∧ Status deal = ACCEPTED) ->
       GetDeal e w id = Err errDealNotFound)
  ∧ (∀ bigID deal, ParseBigInt id = Ok bigID ->
       GetDealInfo w bigID = Ok deal ->
       SupplierID deal = selfHex (key e) -> Status deal = ACCEPTED ->
       GetDeal e w id = Ok deal)
  ∧ (∀ deal, GetDeal e w id = Ok deal ->
       SupplierID deal = selfHex (key e) ∧ Status deal = ACCEPTED
       ∧ ∃ bigID, ParseBigInt id = Ok bigID ∧ GetDealInfo w bigID = Ok deal).
Proof.
  unfold GetDeal, hub.GetDeal.
  split; [|split; [|split; [|split]]].
  - by intros err ->.
  - by intros bigID err -> ->.
  - intros bigID deal -> -> Hno.
    destruct (String.eqb _ _ && DealStatus_eqb _ _) eqn:Hok; [|done].
    apply andb_true_iff in Hok as [Hs Hst].
    apply String.eqb_eq in Hs. apply DealStatus_eqb_eq in Hst. tauto.
  - intros bigID deal -> -> Hs Hst.
    rewrite Hs, Hst, String.eqb_refl. done.
  - intros deal. destruct (ParseBigInt id) as [bigID|]; [|done].
    destruct (GetDealInfo w bigID) as [d|] eqn:Hi; [|done].
    destruct (String.eqb _ _ && DealStatus_eqb _ _) eqn:Hok; [|done].
    intros [= <-]. apply andb_true_iff in Hok as [Hs Hst].
    apply String.eqb_eq in Hs. apply DealStatus_eqb_eq in Hst. eauto.
Qed.


End eth.

(** *** The theorems at work on the sample ledgers *)

Import sample.

Lemma WaitForDealCreated_probes_witness :
  WaitForDealCreated selfHex hubEth 0 openLedger
    {| ByuerID := buyer; SpecHash := "h9" |} []
  = Returned (Ok (mkDeal "9" (selfHex 1) PENDING "h9"))
  ∧ WaitForDealCreated selfHex hubEth 0 downLedger
      {| ByuerID := buyer; SpecHash := "h9" |}
      [tickAt (3 * second) downLedger; tickAt (6 * second) openLedger]
    = Returned (Ok (mkDeal "9" (selfHex 1) PENDING "h9"))
  ∧ ∃ err, WaitForDealCreated selfHex hubEth 0 downLedger
             {| ByuerID := buyer; SpecHash := "h9" |}
             [tickAt (3 * second) downLedger; idleAt (900 * second) downLedger]
           = Returned (Err err)
           ∧ (err = DeadlineExceeded
              ∨ ∃ m', m' ∈ [tickAt (3 * second) downLedger;
                            idleAt (900 * second) downLedger]
                      ∧ ctxErr m' = Some err).
Proof.
  split; [|split].
  - apply (proj1 (WaitForDealCreated_probes selfHex hubEth 0 openLedger
                    {| ByuerID := buyer; SpecHash := "h9" |} [])).
    vm_compute. reflexivity.
  - apply (proj1 (proj2 (proj2 (proj2
             (WaitForDealCreated_probes selfHex hubEth 0 downLedger
                {| ByuerID := buyer; SpecHash := "h9" |}
                [tickAt (3 * second) downLedger; tickAt (6 * second) openLedger]))))
             [tickAt (3 * second) downLedger] (tickAt (6 * second) openLedger) []).
    + reflexivity.
    + vm_compute. reflexivity.
    + intros m' Hin. apply list_elem_of_singleton in Hin as ->.
      vm_compute. repeat split.
    + reflexivity.
    + vm_compute. reflexivity.
    + reflexivity.
    + vm_compute. reflexivity.
  - apply (proj1 (proj2 (proj2 (proj2 (proj2 (proj2
             (WaitForDealCreated_probes selfHex hubEth 0 downLedger
                {| ByuerID := buyer; SpecHash := "h9" |}
                [tickAt (3 * second) downLedger;
                 idleAt (900 * second) downLedger]))))))
             [tickAt (3 * second) downLedger]
             (idleAt (900 * second) downLedger) []).
    + reflexivity.
    + vm_compute. reflexivity.
    + intros m' Hin. apply list_elem_of_singleton in Hin as ->.
      vm_compute. reflexivity.
    + vm_compute. discriminate.
    + left. reflexivity.
Defined.

(** No probe matches before the overall timeout of 900 s, and yet the call
    does not fail: at 901 s a tick is due, the runtime draws it, and its
    probe finds the deal. *)
Lemma findDeals_late_probe_returns :
  findDealOnce selfHex hubEth downLedger buyer "h9" = None
  ∧ findDealOnce selfHex hubEth (bc (tickAt (3 * second) downLedger))
      buyer "h9" = None
  ∧ 0 + timeout hubEth <= 901 * second
  ∧ WaitForDealCreated selfHex hubEth 0 downLedger
      {| ByuerID := buyer; SpecHash := "h9" |}
      [tickAt (3 * second) downLedger; tickAt (901 * second) openLedger]
    = Returned (Ok (mkDeal "9" (selfHex 1) PENDING "h9"))
  ∧ ∀ err, WaitForDealCreated selfHex hubEth 0 downLedger
             {| ByuerID := buyer; SpecHash := "h9" |}
             [tickAt (3 * second) downLedger; tickAt (901 * second) openLedger]
           ≠ Returned (Err err).
Proof.
  split; [reflexivity|]. split; [reflexivity|].
  split; [vm_compute; discriminate|].
  split; [vm_compute; reflexivity|].
  intros err. vm_compute. discriminate.
Defined.

(** The ledger answers no query until the deadline: the call fails with
    [DeadlineExceeded], not with the ledger's last error. *)
Lemma findDeals_timeout_not_ledger_error :
  GetOpenedDeal downLedger (selfHex (key hubEth)) buyer = Err ledgerDown
  ∧ findDeals selfHex hubEth 0 downLedger buyer "h9"
      [tickAt (3 * second) downLedger; idleAt (900 * second) downLedger]
    = Returned (Err DeadlineExceeded)
  ∧ findDeals selfHex hubEth 0 downLedger buyer "h9"
      [tickAt (3 * second) downLedger; idleAt (900 * second) downLedger]
    ≠ Returned (Err ledgerDown).
Proof.
  split; [reflexivity|]. split; [vm_compute; reflexivity|].
  vm_compute. discriminate.
Defined.

Lemma findDeals_ledger_errors_transient_witness :
  findDealOnce selfHex hubEth downLedger buyer "h9" = None
  ∧ ∃ err, findDeals selfHex hubEth 0 downLedger buyer "h9"
             [tickAt (3 * second) downLedger; idleAt (900 * second) downLedger]
           = Returned (Err err)
           ∧ (err = DeadlineExceeded
              ∨ ∃ m', m' ∈ [tickAt (3 * second) downLedger;
                            idleAt (900 * second) downLedger]
                      ∧ ctxErr m' = Some err).
Proof.
  split.
  - apply (proj1 (findDeals_ledger_errors_transient selfHex hubEth 0
                    downLedger buyer "h9" []) downLedger ledgerDown).
    reflexivity.
  - apply (proj2 (proj2 (proj2 (proj2
             (findDeals_ledger_errors_transient selfHex hubEth 0
                downLedger buyer "h9"
                [tickAt (3 * second) downLedger;
                 idleAt (900 * second) downLedger]))))
             [tickAt (3 * second) downLedger]
             (idleAt (900 * second) downLedger) []).
    + reflexivity.
    + left. exists ledgerDown. reflexivity.
    + intros m' Hin. apply list_elem_of_singleton in Hin as ->.
      left. exists ledgerDown. reflexivity.
    + vm_compute. discriminate.
    + left. reflexivity.
Defined.

(** The info of the one deal listed as closed cannot be read on the first
    tick: the call does not return that error, it polls on and succeeds on
    the next tick. *)
Lemma WaitForDealClosed_info_error_not_fatal :
  GetClosedDeal flakyLedger (selfHex (key hubEth)) buyer = Ok [7]
  ∧ GetDealInfo flakyLedger 7 = Err ledgerDown
  ∧ WaitForDealClosed selfHex hubEth "7" buyer
      [tickAt (5 * second) flakyLedger]
    = Blocked
  ∧ WaitForDealClosed selfHex hubEth "7" buyer
      [tickAt (5 * second) flakyLedger; tickAt (10 * second) closedLedger]
    = Returned None
  ∧ WaitForDealClosed selfHex hubEth "7" buyer
      [tickAt (5 * second) flakyLedger; tickAt (10 * second) closedLedger]
    ≠ Returned (Some ledgerDown).
Proof.
  repeat split; try reflexivity. vm_compute. discriminate.
Defined.

Lemma WaitForDealClosed_ledger_errors_witness :
  WaitForDealClosed selfHex hubEth "7" buyer
    [tickAt (5 * second) downLedger; tickAt (10 * second) closedLedger]
  = Returned (Some ledgerDown)
  ∧ WaitForDealClosed selfHex hubEth "7" buyer
      [tickAt (5 * second) flakyLedger; tickAt (10 * second) closedLedger]
    = Returned None.
Proof.
  split.
  - apply (proj1 (WaitForDealClosed_ledger_errors selfHex hubEth "7" buyer)
             [] (tickAt (5 * second) downLedger)
             [tickAt (10 * second) closedLedger] ledgerDown);
      reflexivity.
  - apply (proj2 (proj2 (proj2
             (WaitForDealClosed_ledger_errors selfHex hubEth "7" buyer)))
             [tickAt (5 * second) flakyLedger]
             (tickAt (10 * second) closedLedger) [] [7] 7
             (mkDeal "7" (selfHex 1) CLOSED "h7")); try reflexivity.
    apply list_elem_of_here.
Defined.

Lemma WaitForDealClosed_cancel_witness :
  WaitForDealClosed selfHex hubEth "7" buyer
    [idleAt 200000000 closedLedger; cancelAt 500000000 closedLedger;
     tickAt (5 * second) closedLedger]
  = Returned (Some Canceled).
Proof.
  apply (WaitForDealClosed_cancel selfHex hubEth "7" buyer
           [idleAt 200000000 closedLedger] (cancelAt 500000000 closedLedger)
           [tickAt (5 * second) closedLedger] Canceled); reflexivity.
Defined.


End hub_facts.

(** ** More on the directory: frames, the invariant, the janitor's run *)
Module locator_more.
Import locator locator_ctor locator_facts.

(** A sweep only deletes, whatever order it is given. *)
Lemma sweepEntry_foldl_subseteq (dl : Time) (order : list Address) :
  ∀ (m : gmap Address node) (d k : Z),
    (foldl (sweepEntry dl) (m, d, k) order).1.1 ⊆ m.
Proof.
  induction order as [|x xs IH]; intros m d k; cbn [foldl]; [done|].
  unfold sweepEntry at 2.
  destruct (m !! x) as [n|]; [|apply IH].
  destruct (Time_Before (ts n) dl); [|apply IH].
  etrans; [apply IH|]. apply delete_subseteq.
Qed.

Lemma traverseAndCleanIn_db (order : list Address) (now : Time) (l : Locator) :
  db (traverseAndCleanIn order now l).1 ⊆ db l
  ∧ conf (traverseAndCleanIn order now l).1 = conf l.
Proof.
  unfold traverseAndCleanIn.
  pose proof (sweepEntry_foldl_subseteq
                (Time_Add now (Duration_mul (-1) (NodeTTL (conf l))))
                order (db l) 0 0) as H.
  destruct (foldl _ _ order) as [[m d] k]. cbn in *. done.
Qed.

(** One sweep of the janitor, entry by entry. *)
Lemma traverseAndClean_lookup (l : Locator) (now : Time) :
  min_int64 < NodeTTL (conf l) <= max_int64 ->
  Z.of_nat (size (db l)) <= max_int64 ->
  (∀ a, db (traverseAndClean now l).1 !! a
        = match db l !! a with
          | Some n => if bool_decide (ts n < now - NodeTTL (conf l))
                      then None else Some n
          | None => None
          end)
  ∧ conf (traverseAndClean now l).1 = conf l
  ∧ Z.of_nat (size (db (traverseAndClean now l).1)) <= max_int64.
Proof.
  intros Httl Hsz. unfold traverseAndClean.
  destruct (traverseAndCleanIn_filter l now _ (range_order_canonical _) Httl Hsz)
    as (l' & log & -> & Hdb & Hconf & _). cbn [fst].
  split; [|split; [done|]].
  - intros a. rewrite Hdb, map_lookup_filter.
    destruct (db l !! a) as [n|]; [|done]. cbn.
    case_bool_decide.
    + by rewrite option_guard_False by tauto.
    + by rewrite option_guard_True.
  - rewrite Hdb.
    pose proof (map_size_filter
                  (λ kv : Address * node, ¬ ts kv.2 < now - NodeTTL (conf l))
                  (db l)). lia.
Qed.

Lemma Announce_conf_size (now : Time) (l : Locator) (ctx : Context)
  (req : AnnounceRequest) (A : Address) :
  extractEthAddr l ctx = (A, None) ->
  conf (Announce now l ctx req).1 = conf l
  ∧ size (db (Announce now l ctx req).1)
    = match db l !! A with
      | Some _ => size (db l)
      | None => S (size (db l))
      end.
Proof.
  intros H. rewrite (Announce_authenticated _ _ _ _ _ H). cbn [fst].
  split; [reflexivity|].
  unfold putAnnounce. cbn. rewrite map_size_insert.
  by destruct (db l !! A).
Qed.

(** X1. An [Announce] of identity [A] leaves the record of every other
    identity and the configuration as they were, and the directory grows
    by one record when [A] was unknown and by none when it was known. *)
Theorem Announce_frame (now : Time) (l : Locator) (ctx : Context)
  (req : AnnounceRequest) (A : Address) :
  extractEthAddr l ctx = (A, None) ->
  (∀ a, a ≠ A -> db (Announce now l ctx req).1 !! a = db l !! a)
  ∧ conf (Announce now l ctx req).1 = conf l
  ∧ size (db (Announce now l ctx req).1)
    = match db l !! A with
      | Some _ => size (db l)
      | None => S (size (db l))
      end.
Proof.
  intros H. rewrite (Announce_authenticated _ _ _ _ _ H). cbn [fst].
  split; [|split].
  - intros a Hne. by apply putAnnounce_lookup_ne.
  - reflexivity.
  - unfold putAnnounce. cbn. rewrite map_size_insert.
    by destruct (db l !! A).
Qed.

(** X2. Every record of the directory sits under its own address: this
    holds in a new locator and is kept by [Announce], by [Resolve] and by
    a sweep in any order. *)
Theorem keyed_invariant (c : LocatorConfig) (l : Locator) :
  keyed (NewLocator c)
  ∧ (keyed l ->
     (∀ now ctx req, keyed (Announce now l ctx req).1)
     ∧ (∀ isHex toAddr req, keyed (Resolve isHex toAddr l req).1)
     ∧ (∀ order now, keyed (traverseAndCleanIn order now l).1)).
Proof.
  split.
  - intros a n H. cbn in H. by rewrite lookup_empty in H.
  - intros Hl. split; [|split].
    + intros now ctx req. unfold Announce.
      destruct (extractEthAddr l ctx) as [A [err|]]; [done|].
      cbn [fst]. intros a n. unfold putAnnounce. cbn.
      destruct (decide (a = A)) as [->|Hne].
      * rewrite lookup_insert_eq. by intros [= <-].
      * rewrite lookup_insert_ne by done. apply Hl.
    + intros isHex toAddr req. by rewrite Resolve_state.
    + intros order now a n Hn. apply Hl.
      eapply lookup_weaken; [exact Hn|]. apply traverseAndCleanIn_db.
Qed.

(** X3. A record announced at [t] outlives every sweep made at an instant
    [now] with [now - NodeTTL <= t]: [Resolve] after the sweep still
    returns the endpoints announced.  So a fresh [Announce] of a known
    identity starts its time to live anew. *)
Theorem Announce_outlives_sweep (isHex : string -> bool)
  (toAddr : string -> Address) (l : Locator) (ctx : Context) (A : Address)
  (s : string) (E : list string) (t now : Time) :
  extractEthAddr l ctx = (A, None) ->
  isHex s = true -> toAddr s = A ->
  min_int64 < NodeTTL (conf l) <= max_int64 ->
  Z.of_nat (size (db l)) < max_int64 ->
  now - NodeTTL (conf l) <= t ->
  (Resolve isHex toAddr
     (traverseAndClean now
        (Announce t l ctx {| AnnounceRequest_IpAddr := E |}).1).1
     {| EthAddr := s |}).2
  = Ok {| ResolveReply_IpAddr := E |}.
Proof.
  intros Hctx Hs HA Httl Hsz Hnow.
  destruct (Announce_conf_size t l ctx {| AnnounceRequest_IpAddr := E |} A Hctx)
    as (Hconf & Hsize).
  set (l1 := (Announce t l ctx {| AnnounceRequest_IpAddr := E |}).1) in *.
  assert (Hl1 : db l1 !! A
                = Some (set_ts {| ethAddr := A; ipAddr := E; ts := 0 |} t)).
  { subst l1. rewrite (Announce_authenticated _ _ _ _ _ Hctx). cbn [fst].
    apply (putAnnounce_lookup t l {| ethAddr := A |}). }
  destruct (traverseAndClean_lookup l1 now) as (Hlook & _).
  - by rewrite Hconf.
  - rewrite Hsize. destruct (db l !! A); lia.
  - rewrite (Resolve_found isHex toAddr _ s
               (set_ts {| ethAddr := A; ipAddr := E; ts := 0 |} t)); [done..|].
    rewrite HA, Hlook, Hl1, Hconf. cbn.
    case_bool_decide; [lia|done].
Qed.

(** X4. The janitor's run over any ticks: a record is gone at the end
    when it had expired at one of the ticks, and is there unchanged when
    it had expired at none; no record appears, and the configuration
    stays. *)
Theorem cleanExpiredNodes_run (ticks : list Time) (l : Locator) :
  min_int64 < NodeTTL (conf l) <= max_int64 ->
  Z.of_nat (size (db l)) <= max_int64 ->
  (∀ a n, db l !! a = Some n ->
     (∃ now, now ∈ ticks ∧ ts n < now - NodeTTL (conf l)) ->
     db (cleanExpiredNodes ticks l) !! a = None)
  ∧ (∀ a n, db l !! a = Some n ->
       (∀ now, now ∈ ticks -> ¬ ts n < now - NodeTTL (conf l)) ->
       db (cleanExpiredNodes ticks l) !! a = Some n)
  ∧ (∀ a, db l !! a = None -> db (cleanExpiredNodes ticks l) !! a = None)
  ∧ conf (cleanExpiredNodes ticks l) = conf l.
Proof.
  revert l. induction ticks as [|t ticks IH]; intros l Httl Hsz.
  - cbn. repeat split; try done.
    intros a n _ (now & Hin & _). by apply elem_of_nil in Hin.
  - destruct (traverseAndClean_lookup l t Httl Hsz) as (Hlook & Hconf & Hsz').
    change (cleanExpiredNodes (t :: ticks) l)
      with (cleanExpiredNodes ticks (traverseAndClean t l).1).
    set (l1 := (traverseAndClean t l).1) in *.
    destruct (IH l1) as (Hgone & Hkept & Hnone & Hc);
      [by rewrite Hconf|done|].
    rewrite Hconf in Hgone, Hkept.
    split; [|split; [|split]].
    + intros a n Hn (now & Hin & Hexp).
      pose proof (Hlook a) as Ha. rewrite Hn in Ha.
      case_bool_decide as Ht.
      * by apply Hnone.
      * apply (Hgone a n Ha). apply elem_of_cons in Hin as [->|Hin]; [done|].
        by exists now.
    + intros a n Hn Hall.
      pose proof (Hlook a) as Ha. rewrite Hn in Ha.
      case_bool_decide as Ht.
      * exfalso. apply (Hall t); [left|done].
      * apply (Hkept a n Ha). intros now Hin. apply Hall. by right.
    + intros a Hn. apply Hnone. by rewrite Hlook, Hn.
    + by rewrite Hc.
Qed.

(** X5. A sweep never adds or alters a record, and it is idempotent: a
    second sweep at the same or at an earlier instant finds nothing to
    delete and gives back the locator as the first one left it. *)
Theorem traverseAndClean_idempotent (l : Locator) (now now' : Time) :
  min_int64 < NodeTTL (conf l) <= max_int64 ->
  Z.of_nat (size (db l)) <= max_int64 ->
  now' <= now ->
  let l1 := (traverseAndClean now l).1 in
  db l1 ⊆ db l
  ∧ (size (db l1) <= size (db l))%nat
  ∧ (traverseAndClean now' l1).1 = l1
  ∧ del (traverseAndClean now' l1).2 = 0
  ∧ keep (traverseAndClean now' l1).2 = total (traverseAndClean now' l1).2.
Proof.
  intros Httl Hsz Hle l1.
  destruct (traverseAndClean_lookup l now Httl Hsz) as (Hlook & Hconf & Hsz1).
  fold l1 in Hlook, Hconf, Hsz1.
  assert (Hsub : db l1 ⊆ db l) by apply traverseAndCleanIn_db.
  split; [done|]. split; [by apply map_subseteq_size|].
  unfold traverseAndClean at 1 2 3 4.
  destruct (traverseAndCleanIn_filter l1 now' _ (range_order_canonical _))
    as (l2 & log & Hrun & Hdb & Hconf2 & Ht & Hk & Hd);
    [by rewrite Hconf|done|].
  rewrite Hrun. cbn [fst snd].
  assert (Hsame : db l2 = db l1).
  { rewrite Hdb. apply map_filter_id. intros a n Hn.
    pose proof (Hlook a) as Ha. rewrite Hn in Ha.
    destruct (db l !! a) as [n0|]; [|done].
    case_bool_decide as Ht0; [done|]. injection Ha as ->.
    rewrite Hconf. cbn. lia. }
  split; [|split].
  - assert (Heq : ∀ a b : Locator, conf a = conf b -> db a = db b -> a = b)
      by (intros [] []; cbn; congruence).
    by apply Heq.
  - rewrite Hd, Hsame. lia.
  - rewrite Hk, Ht, Hsame. done.
Qed.

(** X6. [NewLocator] gives a locator exactly when a key is given and the
    certificate rotator succeeds, and reports an error exactly when the
    rotator fails: called with a [nil] key it returns neither a locator
    nor an error, since it wraps an error that is still [nil].  The
    locator it gives has an empty directory. *)
Theorem NewLocator_call_results
  (rotator : PrivateKey -> option locator_ctor.error)
  (c : LocatorConfig) (key : option PrivateKey) :
  NewLocator_call rotator c None = (None, None)
  ∧ (∀ l, (NewLocator_call rotator c key).1 = Some l ↔
       l = NewLocator c ∧ ∃ k, key = Some k ∧ rotator k = None)
  ∧ (∀ err, (NewLocator_call rotator c key).2 = Some err ↔
       ∃ k, key = Some k ∧ rotator k = Some err)
  ∧ (∀ l, (NewLocator_call rotator c key).1 = Some l -> db l = ∅).
Proof.
  unfold NewLocator_call. split; [done|].
  destruct key as [k|]; cbn.
  - destruct (rotator k) as [e|] eqn:Hr; cbn.
    + split; [|split].
      * intros l. split; [done|]. intros (_ & k' & [= <-] & H). congruence.
      * intros err. split.
        -- intros [= <-]. eauto.
        -- intros (k' & [= <-] & H). congruence.
      * done.
    + split; [|split].
      * intros l. split.
        -- intros [= <-]. eauto.
        -- by intros (-> & _).
      * intros err. split; [done|]. intros (k' & [= <-] & H). congruence.
      * by intros l [= <-].
  - split; [|split].
    + intros l. split; [done|]. by intros (_ & k' & [=] & _).
    + intros err. split; [done|]. by intros (k' & [=] & _).
    + done.
Qed.

End locator_more.

(** ** The GPU device and its options *)
Module gpu_facts.
Import gpu.

(** The device [NewDevice] starts from. *)
Abbreviation blank name vendorName clk mem :=
  {| Name := name; VendorName := vendorName; VendorId := 0;
     MaxMemorySize := mem; MaxClockFrequency := clk;
     OpenCLDeviceVersionMajor := 0; OpenCLDeviceVersionMinor := 0 |}.

Lemma NewDevice_range_app d xs ys :
  NewDevice_range d (xs ++ ys)
  = match NewDevice_range d xs with
    | Ok d1 => NewDevice_range d1 ys
    | Err err => Err err
    end.
Proof.
  revert d. induction xs as [|o xs IH]; intros d; cbn; [done|].
  destruct (o d) as [d' [err|]]; [done|]. apply IH.
Qed.

Lemma NewDevice_range_Err d options err :
  NewDevice_range d options = Err err ↔
  ∃ pre o post d1,
    options = pre ++ o :: post
    ∧ NewDevice_range d pre = Ok d1
    ∧ (o d1).2 = Some err.
Proof.
  revert d. induction options as [|o os IH]; intros d; cbn.
  - split; [done|]. intros (pre & o & post & d1 & H & _). by destruct pre.
  - destruct (o d) as [d' [e|]] eqn:Ho.
    + split.
      * intros [= ->]. exists [], o, os, d. cbn. by rewrite Ho.
      * intros (pre & o' & post & d1 & Heq & Hpre & Herr).
        destruct pre as [|p pre]; cbn in Heq, Hpre; injection Heq as <- ->.
        -- injection Hpre as <-. rewrite Ho in Herr. cbn in Herr. congruence.
        -- by rewrite Ho in Hpre.
    + rewrite IH. split.
      * intros (pre & o' & post & d1 & -> & Hpre & Herr).
        exists (o :: pre), o', post, d1. cbn. by rewrite Ho.
      * intros (pre & o' & post & d1 & Heq & Hpre & Herr).
        destruct pre as [|p pre]; cbn in Heq, Hpre; injection Heq as <- ->.
        -- injection Hpre as <-. rewrite Ho in Herr. cbn in Herr. congruence.
        -- rewrite Ho in Hpre. by exists pre, o', post, d1.
Qed.

Lemma NewDevice_Ok name vendorName clk mem options dev :
  NewDevice name vendorName clk mem options = Ok dev ↔
  ∃ d, dev = mkDevice d
       ∧ NewDevice_range (blank name vendorName clk mem) options = Ok d.
Proof.
  unfold NewDevice. destruct (NewDevice_range _ options) as [d|err].
  - split.
    + intros [= <-]. eauto.
    + by intros (d' & -> & [= ->]).
  - split; [done|]. by intros (d' & _ & [=]).
Qed.

Lemma NewDevice_Err name vendorName clk mem options err :
  NewDevice name vendorName clk mem options = Err err ↔
  NewDevice_range (blank name vendorName clk mem) options = Err err.
Proof.
  unfold NewDevice. destruct (NewDevice_range _ options); split; congruence.
Qed.

(** What an option of the package does to a device. *)
Lemma builtin_frame Sscanf o d :
  builtin Sscanf o ->
  Name (o d).1 = Name d ∧ VendorName (o d).1 = VendorName d
  ∧ MaxMemorySize (o d).1 = MaxMemorySize d
  ∧ MaxClockFrequency (o d).1 = MaxClockFrequency d.
Proof.
  intros [id|version|major minor]; cbn; [done| |done].
  unfold WithOpenClDeviceVersion.
  destruct (1 <=? _), (2 <=? _), (_ <? 2); cbn; try done;
    destruct (_ && _); done.
Qed.

Lemma NewDevice_range_builtin_frame Sscanf options :
  Forall (builtin Sscanf) options ->
  ∀ d0 d, NewDevice_range d0 options = Ok d ->
    Name d = Name d0 ∧ VendorName d = VendorName d0
    ∧ MaxMemorySize d = MaxMemorySize d0
    ∧ MaxClockFrequency d = MaxClockFrequency d0.
Proof.
  induction 1 as [|o os Ho Hos IH]; intros d0 d; cbn.
  - by intros [= ->].
  - destruct (builtin_frame Sscanf o d0 Ho) as (H1 & H2 & H3 & H4).
    destruct (o d0) as [d' [e|]]; [done|]. cbn in *.
    intros H. apply IH in H. by rewrite H1, H2, H3, H4 in H.
Qed.

Lemma builtin_error Sscanf o d err :
  builtin Sscanf o -> (o d).2 = Some err ->
  err = errMalformedOpenCLVersion
  ∧ ∃ version, o = WithOpenClDeviceVersion Sscanf version
               ∧ scan_n (Sscanf version) < 2.
Proof.
  intros [id|version|major minor] H; [done| |done].
  unfold WithOpenClDeviceVersion in H.
  destruct (Z.ltb_spec (scan_n (Sscanf version)) 2) as [Hlt|Hge].
  - cbn in H. injection H as <-. split; [reflexivity|].
    exists version. split; [reflexivity|exact Hlt].
  - by destruct (_ && _).
Qed.

(** X7. [NewDevice] fails exactly when one of its options fails on the
    device the options before it have made, and then with the error of
    the first such option: the options after it are not run and no device
    is returned. *)
Theorem NewDevice_first_error (name vendorName : string) (clk mem : Z)
  (options : list Option) (err : error) :
  NewDevice name vendorName clk mem options = Err err ↔
  ∃ pre o post d1,
    options = pre ++ o :: post
    ∧ NewDevice_range (blank name vendorName clk mem) pre = Ok d1
    ∧ (o d1).2 = Some err.
Proof.
  rewrite <- NewDevice_range_Err. unfold NewDevice.
  destruct (NewDevice_range _ options); split; congruence.
Qed.

(** X8. With the options of the package alone, [NewDevice] can fail with
    [errMalformedOpenCLVersion] only, and it fails exactly when some
    [WithOpenClDeviceVersion] got a string of which fewer than two items
    could be scanned: a version without the vendor part is accepted, and a
    scanner error after the two numbers is never reported. *)
Theorem NewDevice_builtin_errors (Sscanf : string -> scan)
  (name vendorName : string) (clk mem : Z) (options : list Option) :
  Forall (builtin Sscanf) options ->
  (∀ err, NewDevice name vendorName clk mem options = Err err ->
     err = errMalformedOpenCLVersion)
  ∧ ((∃ err, NewDevice name vendorName clk mem options = Err err) ↔
     Exists (λ o, ∃ version, o = WithOpenClDeviceVersion Sscanf version
                             ∧ scan_n (Sscanf version) < 2) options).
Proof.
  intros Hall. split.
  - intros err H. apply NewDevice_Err in H.
    apply NewDevice_range_Err in H as (pre & o & post & d1 & -> & _ & Herr).
    apply Forall_app in Hall as [_ Hall]. apply Forall_cons in Hall as [Ho _].
    by destruct (builtin_error Sscanf o d1 err Ho Herr).
  - split.
    + intros [err H]. apply NewDevice_Err in H.
      apply NewDevice_range_Err in H as (pre & o & post & d1 & -> & _ & Herr).
      apply Forall_app in Hall as [_ Hall]. apply Forall_cons in Hall as [Ho _].
      destruct (builtin_error Sscanf o d1 err Ho Herr) as (_ & version & Hv).
      apply Exists_app. right. apply Exists_cons. left. by exists version.
    + unfold NewDevice. generalize (blank name vendorName clk mem).
      induction options as [|o os IH]; intros d Hex.
      * by apply Exists_nil in Hex.
      * apply Forall_cons in Hall as [Ho Hos]. cbn.
        destruct (o d) as [d' [e|]] eqn:Hod; [eauto|].
        apply Exists_cons in Hex as [(version & -> & Hn)|Hex].
        -- exfalso. unfold WithOpenClDeviceVersion in Hod.
           destruct (Z.ltb_spec (scan_n (Sscanf version)) 2); [|lia].
           done.
        -- by apply IH.
Qed.

(** X9. With the options of the package alone, the device [NewDevice]
    returns has the name, the vendor name and the memory size it was
    given, and [MaxClockFrequency()] is the clock given cut to the width
    of [uint]: the clock itself where it fits. *)
Theorem NewDevice_builtin_getters (Sscanf : string -> scan) (bits : Z)
  (name vendorName : string) (clk mem : Z) (options : list Option)
  (dev : device) :
  Forall (builtin Sscanf) options ->
  NewDevice name vendorName clk mem options = Ok dev ->
  device_Name dev = name
  ∧ device_VendorName dev = vendorName
  ∧ device_MaxMemorySize dev = mem
  ∧ device_MaxClockFrequency bits dev = clk mod 2 ^ bits
  ∧ (0 <= clk < 2 ^ bits -> device_MaxClockFrequency bits dev = clk).
Proof.
  intros Hall H. apply NewDevice_Ok in H as (d & -> & H).
  pose proof (NewDevice_range_builtin_frame Sscanf options Hall _ _ H) as Hd.
  cbn in Hd.
  destruct Hd as (H1 & H2 & H3 & H4). cbn. unfold to_uint.
  rewrite H4. repeat split; try done.
  intros Hfit. by apply Z.mod_small.
Qed.

(** X10. The last option wins: after any options, a final [WithVendorId]
    makes [VendorId()] return the id given (a [uint]), and a final
    [WithOpenClDeviceVersionSpec] makes the two version getters return the
    numbers given, whatever earlier options had set. *)
Theorem NewDevice_last_option_wins (bits : Z) (name vendorName : string)
  (clk mem : Z) (options : list Option) :
  (∀ id dev, 0 < bits <= 64 -> 0 <= id < 2 ^ bits ->
     NewDevice name vendorName clk mem (options ++ [WithVendorId id]) = Ok dev ->
     device_VendorId bits dev = id)
  ∧ (∀ major minor dev,
       NewDevice name vendorName clk mem
         (options ++ [WithOpenClDeviceVersionSpec major minor]) = Ok dev ->
       device_OpenCLDeviceVersionMajor dev = major
       ∧ device_OpenCLDeviceVersionMinor dev = minor).
Proof.
  split.
  - intros id dev Hbits Hid H. apply NewDevice_Ok in H as (d & -> & H).
    rewrite NewDevice_range_app in H.
    destruct (NewDevice_range _ options) as [d1|]; [|done].
    cbn in H. injection H as <-. cbn. unfold to_uint, wrap_uint64.
    assert (2 ^ bits <= 2 ^ 64) by (apply Z.pow_le_mono_r; lia).
    rewrite (Z.mod_small id (2 ^ 64)) by lia. apply Z.mod_small. lia.
  - intros major minor dev H. apply NewDevice_Ok in H as (d & -> & H).
    rewrite NewDevice_range_app in H.
    destruct (NewDevice_range _ options) as [d1|]; [|done].
    cbn in H. by injection H as <-.
Qed.

(** *** The theorems at work *)

Import sample_more.

Lemma NewDevice_first_error_witness :
  NewDevice "GTX 1080" "NVIDIA" 1607 8589934592
    [WithVendorId 4318; WithOpenClDeviceVersion scanWords "CUDA 9";
     WithOpenClDeviceVersionSpec 1 2]
  = Err errMalformedOpenCLVersion.
Proof.
  apply (proj2 (NewDevice_first_error "GTX 1080" "NVIDIA" 1607 8589934592
                  [WithVendorId 4318; WithOpenClDeviceVersion scanWords "CUDA 9";
                   WithOpenClDeviceVersionSpec 1 2]
                  errMalformedOpenCLVersion)).
  exists [WithVendorId 4318], (WithOpenClDeviceVersion scanWords "CUDA 9"),
    [WithOpenClDeviceVersionSpec 1 2],
    (set_VendorId (blank "GTX 1080" "NVIDIA" 1607 8589934592) 4318).
  split; [reflexivity|]. split; [reflexivity|]. vm_compute. reflexivity.
Defined.

Lemma NewDevice_builtin_errors_witness :
  ∃ err,
    NewDevice "GTX 1080" "NVIDIA" 1607 8589934592
      [WithVendorId 4318; WithOpenClDeviceVersion scanWords "CUDA 9"]
    = Err err.
Proof.
  apply (proj2 (NewDevice_builtin_errors scanWords "GTX 1080" "NVIDIA" 1607
                  8589934592
                  [WithVendorId 4318; WithOpenClDeviceVersion scanWords "CUDA 9"]
                  ltac:(repeat constructor))).
  apply Exists_cons. right. apply Exists_cons. left.
  exists "CUDA 9". split; [reflexivity|]. vm_compute. reflexivity.
Defined.

Lemma NewDevice_builtin_getters_witness :
  device_Name (mkDevice (set_Minor (set_Major (set_VendorId
     (blank "GTX 1080" "NVIDIA" 4294968903 8589934592) 4318) 2) 0))
  = "GTX 1080"
  ∧ device_MaxClockFrequency 32 (mkDevice (set_Minor (set_Major (set_VendorId
      (blank "GTX 1080" "NVIDIA" 4294968903 8589934592) 4318) 2) 0))
    = 1607.
Proof.
  destruct (NewDevice_builtin_getters scanWords 32
              "GTX 1080" "NVIDIA" 4294968903 8589934592
              [WithVendorId 4318; WithOpenClDeviceVersion scanWords "OpenCL 2.0"]
              (mkDevice (set_Minor (set_Major (set_VendorId
                 (blank "GTX 1080" "NVIDIA" 4294968903 8589934592) 4318) 2) 0)))
    as (H1 & _ & _ & H4 & _).
  - repeat constructor.
  - vm_compute. reflexivity.
  - split; [exact H1|]. rewrite H4. reflexivity.
Defined.

Lemma NewDevice_last_option_wins_witness :
  device_VendorId 64
    (mkDevice (set_VendorId (set_VendorId
       (blank "GTX 1080" "NVIDIA" 1607 8589934592) 1) 4318))
  = 4318.
Proof.
  apply (proj1 (NewDevice_last_option_wins 64 "GTX 1080" "NVIDIA" 1607
                  8589934592 [WithVendorId 1])).
  - lia.
  - vm_compute. split; [discriminate | reflexivity].
  - vm_compute. reflexivity.
Defined.

End gpu_facts.

(** ** More on the deal watcher: races, the missing timeout, ledger calls *)
Module hub_more.
Import hub hub_calls hub_facts.

Section eth.
Variable selfHex : PrivateKey -> string.
Variable ParseBigInt : string -> result error Z.

Abbreviation findDealOnce := (findDealOnce selfHex).
Abbreviation findDeals_loop := (findDeals_loop selfHex).
Abbreviation findDeals := (findDeals selfHex).
Abbreviation WaitForDealClosed := (WaitForDealClosed selfHex).
Abbreviation GetDeal := (GetDeal selfHex ParseBigInt).
Abbreviation findDealOnce_calls := (findDealOnce_calls selfHex).

(** Ticks under a live context whose probes find nothing leave the loop
    of the discovery where it was. *)
Lemma findDeals_loop_live_prefix e dl addr hash pre ms :
  (∀ m', m' ∈ pre ->
     ctxErr m' = None ∧ at_time m' < dl
     ∧ findDealOnce e (bc m') addr hash = None) ->
  findDeals_loop e dl None addr hash (pre ++ ms)
  = findDeals_loop e dl None addr hash ms.
Proof.
  intros Hpre. induction pre as [|p pre IH]; [done|].
  destruct (Hpre p) as (Hc & Ha & Hn); [left|].
  assert (Hlive : withTimeout_Err dl None p = None).
  { unfold withTimeout_Err. rewrite Hc.
    destruct (Z.leb_spec dl (at_time p)); [lia|done]. }
  assert (IH' := IH (λ m' Hin, Hpre m' (list_elem_of_further _ _ _ Hin))).
  cbn. rewrite Hlive, Hn. by destruct (tickReady p); cbn.
Qed.

Lemma WaitForDealClosed_range_false w dealID ids :
  (∀ id d, id ∈ ids -> GetDealInfo w id = Ok d ->
     ¬ (Id d = dealID ∧ Status d = CLOSED)) ->
  WaitForDealClosed_range w dealID ids = false.
Proof.
  intros H. destruct (WaitForDealClosed_range w dealID ids) eqn:Hr; [|done].
  apply WaitForDealClosed_range_true in Hr as (id & d & Hin & Hi & Hid & Hst).
  by destruct (H id d Hin Hi).
Qed.

(** X11. [WaitForDealClosed] has no timeout of its own.  Under a context
    that stays live the call is still waiting, however many ticks and
    however much time have passed, exactly when on every tick so far the
    listing of the closed deals succeeded and held no readable deal with
    the awaited id and status CLOSED. *)
Theorem WaitForDealClosed_no_timeout (e : eth) (dealID : DealID)
  (buyerID : string) (ms : list moment) :
  (∀ m, m ∈ ms -> ctxErr m = None) ->
  WaitForDealClosed e dealID buyerID ms = Blocked ↔
  ∀ m, m ∈ ms -> tickReady m = true ->
    ∃ ids, GetClosedDeal (bc m) (selfHex (key e)) buyerID = Ok ids
      ∧ ∀ id d, id ∈ ids -> GetDealInfo (bc m) id = Ok d ->
          ¬ (Id d = dealID ∧ Status d = CLOSED).
Proof.
  induction ms as [|m ms IH]; intros Hlive.
  - split; [|done]. intros _ m Hin. by apply elem_of_nil in Hin.
  - assert (Hctx : ctxErr m = None) by (apply Hlive; left).
    assert (IH' := IH (λ m' Hin, Hlive m' (list_elem_of_further _ _ _ Hin))).
    cbn. rewrite Hctx.
    destruct (tickReady m) eqn:Htick; cbn.
    + destruct (GetClosedDeal (bc m) (selfHex (key e)) buyerID)
        as [ids|err] eqn:Hc.
      * destruct (WaitForDealClosed_range (bc m) dealID ids) eqn:Hr.
        -- split; [done|]. intros H.
           destruct (H m) as (ids' & Hc' & Hno); [left|done|].
           rewrite Hc in Hc'. injection Hc' as <-.
           by rewrite (WaitForDealClosed_range_false _ _ _ Hno) in Hr.
        -- rewrite IH'. split.
           ++ intros H m' Hin Ht. apply elem_of_cons in Hin as [->|Hin].
              ** exists ids. split; [done|]. intros id d Hid Hi [Hd Hst].
                 assert (WaitForDealClosed_range (bc m) dealID ids = true)
                   by (apply WaitForDealClosed_range_true; by exists id, d).
                 congruence.
              ** by apply H.
           ++ intros H m' Hin. apply H. by right.
      * split; [done|]. intros H.
        destruct (H m) as (ids' & Hc' & _); [left|done|]. congruence.
    + rewrite IH'. split.
      * intros H m' Hin Ht. apply elem_of_cons in Hin as [->|Hin].
        -- congruence.
        -- by apply H.
      * intros H m' Hin. apply H. by right.
Qed.

(** X12. An error [WaitForDealClosed] returns is the error of its context
    at a moment it was scheduled, or the error the listing of the closed
    deals gave on a tick. *)
Theorem WaitForDealClosed_error_origin (e : eth) (dealID : DealID)
  (buyerID : string) (ms : list moment) (err : error) :
  WaitForDealClosed e dealID buyerID ms = Returned (Some err) ->
  ∃ m, m ∈ ms
    ∧ (ctxErr m = Some err
       ∨ (tickReady m = true
          ∧ GetClosedDeal (bc m) (selfHex (key e)) buyerID = Err err)).
Proof.
  induction ms as [|m ms IH]; cbn; [done|].
  assert (Hnext : WaitForDealClosed e dealID buyerID ms = Returned (Some err) ->
    ∃ m', m' ∈ m :: ms
      ∧ (ctxErr m' = Some err
         ∨ (tickReady m' = true
            ∧ GetClosedDeal (bc m') (selfHex (key e)) buyerID = Err err))).
  { intros H. destruct (IH H) as (m' & Hin & Hm'). exists m'.
    split; [by right|done]. }
  destruct (select _ _ _) as [[]|] eqn:Hsel; [| |done].
  - destruct (GetClosedDeal _ _ _) as [ids|err'] eqn:Hc.
    + by destruct (WaitForDealClosed_range _ _ _).
    + intros [= ->]. exists m. split; [left|]. right.
      split; [by eapply select_TimerC|done].
  - destruct (ctxErr m) as [err'|] eqn:Hctx; [|done].
    intros [= ->]. exists m. split; [left|by left].
Qed.

(** X13. When the context is done and a tick is due at the same moment,
    the runtime's draw decides: drawn the context, [WaitForDealClosed]
    returns the context's error; drawn the tick, it polls the ledger as on
    any tick, and returns [nil] when the deal shows as closed or the
    listing's error when the listing fails, the done context
    notwithstanding. *)
Theorem WaitForDealClosed_race (e : eth) (dealID : DealID)
  (buyerID : string) (pre : list moment) (m : moment) (post : list moment)
  (err : error) :
  WaitForDealClosed e dealID buyerID pre = Blocked ->
  tickReady m = true ->
  ctxErr m = Some err ->
  (pick m = CtxDone ->
     WaitForDealClosed e dealID buyerID (pre ++ m :: post)
     = Returned (Some err))
  ∧ (pick m = TimerC ->
     ∀ ids id d,
       GetClosedDeal (bc m) (selfHex (key e)) buyerID = Ok ids ->
       id ∈ ids -> GetDealInfo (bc m) id = Ok d ->
       Id d = dealID -> Status d = CLOSED ->
       WaitForDealClosed e dealID buyerID (pre ++ m :: post) = Returned None)
  ∧ (pick m = TimerC ->
     ∀ err', GetClosedDeal (bc m) (selfHex (key e)) buyerID = Err err' ->
       WaitForDealClosed e dealID buyerID (pre ++ m :: post)
       = Returned (Some err')).
Proof.
  intros Hpre Htick Hctx.
  rewrite (WaitForDealClosed_app selfHex) by done. cbn.
  rewrite Htick, Hctx. cbn.
  split; [|split].
  - by intros ->.
  - intros -> ids id d Hc Hin Hi Hid Hst. rewrite Hc.
    assert (Hr : WaitForDealClosed_range (bc m) dealID ids = true).
    { apply WaitForDealClosed_range_true. by exists id, d. }
    by rewrite Hr.
  - intros -> err' Hc. by rewrite Hc.
Qed.

(** X14. The deadline of [findDeals] is not strict: at a moment past the
    deadline at which a tick is due as well and the runtime draws the
    tick, the probe still runs, and a deal it finds is returned. *)
Theorem findDeals_after_deadline (e : eth) (now : Time) (w0 : Blockchainer)
  (addr hash : string) (pre : list moment) (m : moment)
  (post : list moment) (deal : Deal) :
  findDealOnce e w0 addr hash = None ->
  (∀ m', m' ∈ pre ->
     ctxErr m' = None ∧ at_time m' < now + timeout e
     ∧ findDealOnce e (bc m') addr hash = None) ->
  now + timeout e <= at_time m ->
  tickReady m = true -> pick m = TimerC ->
  findDealOnce e (bc m) addr hash = Some deal ->
  findDeals e now w0 addr hash (pre ++ m :: post) = Returned (Ok deal).
Proof.
  intros H0 Hpre Hdue Htick Hpick Hp.
  unfold findDeals, hub.findDeals, Time_Add. rewrite H0.
  rewrite (findDeals_loop_live_prefix _ _ _ _ _ _ Hpre). cbn.
  rewrite Htick, Hpick, Hp.
  by destruct (bool_decide _).
Qed.

(** X15. A deal the discovery has just found cannot be fetched with
    [GetDeal] on the same ledger: it is PENDING, and [GetDeal] returns
    [errDealNotFound] for it until its status is ACCEPTED. *)
Theorem found_deal_not_gettable (e : eth) (w : Blockchainer)
  (addr hash : string) (deal : Deal) (bigID : Z) :
  findDealOnce e w addr hash = Some deal ->
  ParseBigInt (Id deal) = Ok bigID ->
  GetDealInfo w bigID = Ok deal ->
  GetDeal e w (Id deal) = Err errDealNotFound.
Proof.
  intros Hfound Hparse Hinfo.
  apply findDealOnce_Some in Hfound
    as (IDs & pre & id & post & _ & _ & _ & Hst & _).
  unfold GetDeal, hub.GetDeal. rewrite Hparse, Hinfo, Hst. cbn.
  by rewrite andb_false_r.
Qed.

Lemma findDealOnce_range_calls_fst w hash IDs :
  (findDealOnce_range_calls w hash IDs).1 = findDealOnce_range w hash IDs.
Proof.
  induction IDs as [|id IDs IH]; cbn; [done|].
  destruct (GetDealInfo w id) as [d|err].
  - destruct (_ && _); [done|].
    by destruct (findDealOnce_range_calls w hash IDs).
  - by destruct (findDealOnce_range_calls w hash IDs).
Qed.

Lemma findDealOnce_range_calls_None w hash IDs :
  findDealOnce_range w hash IDs = None ->
  (findDealOnce_range_calls w hash IDs).2 = CallGetDealInfo <$> IDs.
Proof.
  induction IDs as [|id IDs IH]; cbn; [done|].
  destruct (GetDealInfo w id) as [d|err].
  - destruct (_ && _); [done|]. intros H. specialize (IH H).
    destruct (findDealOnce_range_calls w hash IDs). cbn in *. by rewrite IH.
  - intros H. specialize (IH H).
    destruct (findDealOnce_range_calls w hash IDs). cbn in *. by rewrite IH.
Qed.

Lemma findDealOnce_range_calls_Some w hash IDs deal :
  findDealOnce_range w hash IDs = Some deal ->
  ∃ pre id post,
    IDs = pre ++ id :: post
    ∧ GetDealInfo w id = Ok deal
    ∧ (findDealOnce_range_calls w hash IDs).2
      = CallGetDealInfo <$> (pre ++ [id]).
Proof.
  induction IDs as [|id IDs IH]; cbn; [done|].
  destruct (GetDealInfo w id) as [d|err] eqn:Hi.
  - destruct (_ && _).
    + intros [= <-]. by exists [], id, IDs.
    + intros H. destruct (IH H) as (pre & id' & post & -> & Hi' & Hc).
      exists (id :: pre), id', post. split; [done|]. split; [done|].
      destruct (findDealOnce_range_calls w hash _). cbn in *. by rewrite Hc.
  - intros H. destruct (IH H) as (pre & id' & post & -> & Hi' & Hc).
    exists (id :: pre), id', post. split; [done|]. split; [done|].
    destruct (findDealOnce_range_calls w hash _). cbn in *. by rewrite Hc.
Qed.

(** X16. The ledger calls of one probe of the discovery: the listing of
    the opened deals first, then the info of the listed ids in their
    order, up to and including the first match and no further; all of
    them when nothing matches, none when the listing fails.  The probe
    never calls [AcceptDeal]. *)
Theorem findDealOnce_calls_spec (e : eth) (w : Blockchainer)
  (addr hash : string) :
  (findDealOnce_calls e w addr hash).1 = findDealOnce e w addr hash
  ∧ (∀ err, GetOpenedDeal w (selfHex (key e)) addr = Err err ->
       (findDealOnce_calls e w addr hash).2
       = [CallGetOpenedDeal (selfHex (key e)) addr])
  ∧ (∀ IDs, GetOpenedDeal w (selfHex (key e)) addr = Ok IDs ->
       findDealOnce e w addr hash = None ->
       (findDealOnce_calls e w addr hash).2
       = CallGetOpenedDeal (selfHex (key e)) addr :: (CallGetDealInfo <$> IDs))
  ∧ (∀ IDs deal, GetOpenedDeal w (selfHex (key e)) addr = Ok IDs ->
       findDealOnce e w addr hash = Some deal ->
       ∃ pre id post,
         IDs = pre ++ id :: post
         ∧ GetDealInfo w id = Ok deal
         ∧ (findDealOnce_calls e w addr hash).2
           = CallGetOpenedDeal (selfHex (key e)) addr
             :: (CallGetDealInfo <$> (pre ++ [id])))
  ∧ (∀ k id, CallAcceptDeal k id ∉ (findDealOnce_calls e w addr hash).2).
Proof.
  unfold findDealOnce_calls, hub_calls.findDealOnce_calls,
    findDealOnce, hub.findDealOnce.
  destruct (GetOpenedDeal w (selfHex (key e)) addr) as [IDs|err0] eqn:Hopen.
  - pose proof (findDealOnce_range_calls_fst w hash IDs) as Hfst.
    pose proof (findDealOnce_range_calls_None w hash IDs) as Hnone.
    pose proof (findDealOnce_range_calls_Some w hash IDs) as Hsome.
    destruct (findDealOnce_range_calls w hash IDs) as [r cs]. cbn in *.
    split; [done|]. split; [done|]. split; [|split].
    + intros IDs' [= <-] H. by rewrite Hnone.
    + intros IDs' deal [= <-] H.
      destruct (Hsome deal H) as (pre & id & post & Heq & Hi & Hc).
      exists pre, id, post. by rewrite Hc.
    + intros k id Hin. apply elem_of_cons in Hin as [?|Hin]; [done|].
      destruct (findDealOnce_range w hash IDs) as [deal|] eqn:Hr.
      * destruct (Hsome deal eq_refl) as (pre & id' & post & _ & _ & Hc).
        rewrite Hc in Hin. apply list_elem_of_fmap in Hin as (? & ? & _). done.
      * rewrite (Hnone eq_refl) in Hin.
        apply list_elem_of_fmap in Hin as (? & ? & _). done.
  - cbn. split; [done|]. split; [done|]. split; [done|]. split; [done|].
    intros k id Hin. apply list_elem_of_singleton in Hin. done.
Qed.

End eth.

(** *** The theorems at work on the sample ledgers *)

Import sample sample_more.

Lemma WaitForDealClosed_no_timeout_witness :
  WaitForDealClosed selfHex hubEth "7" buyer
    [tickAt (5 * second) openLedger; idleAt (7 * second) openLedger;
     tickAt (10 * second) flakyLedger]
  = Blocked.
Proof.
  apply (proj2 (WaitForDealClosed_no_timeout selfHex hubEth "7" buyer
                  [tickAt (5 * second) openLedger; idleAt (7 * second) openLedger;
                   tickAt (10 * second) flakyLedger]
                  ltac:(intros m Hin;
                        repeat (apply elem_of_cons in Hin as [->|Hin];
                                [reflexivity|]);
                        by apply elem_of_nil in Hin))).
  intros m Hin _.
  apply elem_of_cons in Hin as [->|Hin];
    [|apply elem_of_cons in Hin as [->|Hin];
      [|apply list_elem_of_singleton in Hin as ->]].
  - exists []. split; [reflexivity|]. intros id d H.
    by apply elem_of_nil in H.
  - exists []. split; [reflexivity|]. intros id d H.
    by apply elem_of_nil in H.
  - exists [7]. split; [reflexivity|]. intros id d _ H.
    vm_compute in H. discriminate.
Defined.

Lemma WaitForDealClosed_error_origin_witness :
  ∃ m, m ∈ [tickAt (5 * second) downLedger; tickAt (10 * second) closedLedger]
    ∧ (ctxErr m = Some ledgerDown
       ∨ (tickReady m = true
          ∧ GetClosedDeal (bc m) (selfHex (key hubEth)) buyer = Err ledgerDown)).
Proof.
  apply (WaitForDealClosed_error_origin selfHex hubEth "7" buyer).
  vm_compute. reflexivity.
Defined.

Lemma WaitForDealClosed_race_witness :
  WaitForDealClosed selfHex hubEth "7" buyer
    [idleAt second closedLedger; raceAt (5 * second) CtxDone closedLedger]
  = Returned (Some Canceled)
  ∧ WaitForDealClosed selfHex hubEth "7" buyer
      [idleAt second closedLedger; raceAt (5 * second) TimerC closedLedger]
    = Returned None.
Proof.
  split.
  - apply (proj1 (WaitForDealClosed_race selfHex hubEth "7" buyer
                    [idleAt second closedLedger]
                    (raceAt (5 * second) CtxDone closedLedger) [] Canceled
                    eq_refl eq_refl eq_refl)).
    reflexivity.
  - apply (proj1 (proj2 (WaitForDealClosed_race selfHex hubEth "7" buyer
                    [idleAt second closedLedger]
                    (raceAt (5 * second) TimerC closedLedger) [] Canceled
                    eq_refl eq_refl eq_refl))
             eq_refl [7] 7 (mkDeal "7" (selfHex 1) CLOSED "h7"));
      try reflexivity.
    apply list_elem_of_here.
Defined.

Lemma findDeals_after_deadline_witness :
  findDeals selfHex hubEth 0 downLedger buyer "h9"
    [tickAt (3 * second) downLedger;
     {| at_time := 901 * second; tickReady := true; ctxErr := None;
        pick := TimerC; bc := openLedger |}]
  = Returned (Ok (mkDeal "9" (selfHex 1) PENDING "h9")).
Proof.
  apply (findDeals_after_deadline selfHex hubEth 0 downLedger buyer "h9"
           [tickAt (3 * second) downLedger]
           {| at_time := 901 * second; tickReady := true; ctxErr := None;
              pick := TimerC; bc := openLedger |} []).
  - reflexivity.
  - intros m' Hin. apply list_elem_of_singleton in Hin as ->.
    vm_compute. repeat split.
  - vm_compute. discriminate.
  - reflexivity.
  - reflexivity.
  - vm_compute. reflexivity.
Defined.

Lemma found_deal_not_gettable_witness :
  GetDeal selfHex ParseBigInt hubEth pendingLedger "9" = Err errDealNotFound.
Proof.
  apply (found_deal_not_gettable selfHex ParseBigInt hubEth pendingLedger
           buyer "h9" (mkDeal "9" (selfHex 1) PENDING "h9") 9);
    vm_compute; reflexivity.
Defined.

Lemma findDealOnce_calls_spec_witness :
  ∃ pre id post,
    [5; 8; 9] = pre ++ id :: post
    ∧ GetDealInfo openLedger id = Ok (mkDeal "9" (selfHex 1) PENDING "h9")
    ∧ (findDealOnce_calls selfHex hubEth openLedger buyer "h9").2
      = CallGetOpenedDeal (selfHex (key hubEth)) buyer
        :: (CallGetDealInfo <$> (pre ++ [id])).
Proof.
  apply (proj1 (proj2 (proj2 (proj2
           (findDealOnce_calls_spec selfHex hubEth openLedger buyer "h9"))))).
  - reflexivity.
  - vm_compute. reflexivity.
Defined.

End hub_more.

(** ** The directory theorems at work on the sample directories *)
Module locator_runs.
Import locator locator_ctor locator_more sample sample_more.

Lemma Announce_frame_witness :
  db (Announce (30 * second) oneNode (peerOf addrB)
        {| AnnounceRequest_IpAddr := E2 |}).1 !! addr
  = db oneNode !! addr.
Proof.
  apply (proj1 (Announce_frame (30 * second) oneNode (peerOf addrB)
                  {| AnnounceRequest_IpAddr := E2 |} addrB eq_refl)).
  vm_compute. discriminate.
Defined.

Lemma keyed_invariant_witness : keyed oneNode.
Proof.
  apply (proj1 (proj2 (keyed_invariant config (NewLocator config))
                  (proj1 (keyed_invariant config (NewLocator config))))).
Defined.

Lemma Announce_outlives_sweep_witness :
  (Resolve common.IsHexAddress common.HexToAddress
     (traverseAndClean (100 * second)
        (Announce (50 * second) oneNode ethPeer
           {| AnnounceRequest_IpAddr := E2 |}).1).1
     {| EthAddr := addrHex |}).2
  = Ok {| ResolveReply_IpAddr := E2 |}.
Proof.
  apply (Announce_outlives_sweep common.IsHexAddress common.HexToAddress
           oneNode ethPeer addr addrHex E2 (50 * second) (100 * second)).
  - reflexivity.
  - vm_compute. reflexivity.
  - reflexivity.
  - vm_compute. split; [reflexivity | discriminate].
  - vm_compute. reflexivity.
  - vm_compute. discriminate.
Defined.

Lemma cleanExpiredNodes_run_witness :
  db (cleanExpiredNodes [70 * second; 95 * second] threeNodes) !! addrB = None
  ∧ db (cleanExpiredNodes [70 * second; 95 * second] threeNodes) !! addrC
    = Some {| ethAddr := addrC; ipAddr := E1; ts := 50 * second |}.
Proof.
  assert (Httl : min_int64 < NodeTTL (conf threeNodes) <= max_int64)
    by (vm_compute; split; [reflexivity | discriminate]).
  assert (Hsz : Z.of_nat (size (db threeNodes)) <= max_int64)
    by (vm_compute; discriminate).
  destruct (cleanExpiredNodes_run [70 * second; 95 * second] threeNodes Httl Hsz)
    as (Hgone & Hkept & _).
  split.
  - apply (Hgone addrB {| ethAddr := addrB; ipAddr := E2; ts := 30 * second |}).
    + vm_compute. reflexivity.
    + exists (95 * second). split; [right; left|]. vm_compute. reflexivity.
  - apply Hkept.
    + vm_compute. reflexivity.
    + intros now Hin H.
      apply elem_of_cons in Hin as [->|Hin];
        [|apply list_elem_of_singleton in Hin as ->];
        vm_compute in H; discriminate.
Defined.

Lemma traverseAndClean_idempotent_witness :
  (traverseAndClean (70 * second) (traverseAndClean (70 * second) threeNodes).1).1
  = (traverseAndClean (70 * second) threeNodes).1
  ∧ del (traverseAndClean (70 * second)
           (traverseAndClean (70 * second) threeNodes).1).2 = 0.
Proof.
  destruct (traverseAndClean_idempotent threeNodes (70 * second) (70 * second))
    as (_ & _ & Hsame & Hdel & _).
  - vm_compute. split; [reflexivity | discriminate].
  - vm_compute. discriminate.
  - vm_compute. discriminate.
  - split; [exact Hsame | exact Hdel].
Defined.

Lemma NewLocator_call_results_witness :
  NewLocator_call rotatorOk config None = (None, None)
  ∧ (NewLocator_call rotatorDown config (Some 1)).2
    = Some (certError "cannot write certificate")
  ∧ (NewLocator_call rotatorOk config (Some 1)).1 = Some (NewLocator config).
Proof.
  split; [|split].
  - apply (proj1 (NewLocator_call_results rotatorOk config None)).
  - apply (proj1 (proj2 (proj2
             (NewLocator_call_results rotatorDown config (Some 1))))).
    exists 1. split; reflexivity.
  - apply (proj1 (proj2 (NewLocator_call_results rotatorOk config (Some 1)))).
    split; [reflexivity|]. exists 1. split; reflexivity.
Defined.

End locator_runs.
